(** * valkey-cluster-proxy: session, backend and dispatcher core

    A shallow embedding of the Go sources [proxy/session.go],
    [proxy/backend.go], [proxy/dispatcher.go] and [proxy/valkey_conn.go],
    with the properties the design document states about them.

    Conventions of the embedding:
    - Go [string] and [[]byte] values are Rocq [string]s (sequences of bytes);
    - Go [error] values are [option string]: [None] is [nil], [Some msg]
      carries [err.Error()];
    - [int64] sequence numbers are [Z] with the wrap-around written out;
    - [panic] and [glog.Fatalf] end a computation with [Panic] / [Fatal],
      an operation that can never proceed ends it with [Blocked];
    - network operations consume one scripted outcome each and append to a
      trace of events, so every environment behaviour is some script. *)

From Stdlib Require Import ZArith Lia Ascii Sorted.
From stdpp Require Import base option list strings gmap pretty.

Local Open Scope Z_scope.

(** ** Results of computations that may abort the process *)

Inductive Res (A : Type) : Type :=
| Ok (a : A)
| Panic (msg : string)
| Fatal (msg : string)
| Blocked (why : string).
Arguments Ok {A} a.
Arguments Panic {A} msg.
Arguments Fatal {A} msg.
Arguments Blocked {A} why.

(** State passing with abortion: the state at the point of abortion is kept,
    so the events that happened before it stay observable. *)
Definition M (S A : Type) : Type := S -> Res A * S.

Definition ret {S A : Type} (a : A) : M S A := fun s => (Ok a, s).

Definition bind {S A B : Type} (m : M S A) (k : A -> M S B) : M S B :=
  fun s =>
    match m s with
    | (Ok a, s') => k a s'
    | (Panic msg, s') => (Panic msg, s')
    | (Fatal msg, s') => (Fatal msg, s')
    | (Blocked why, s') => (Blocked why, s')
    end.

Definition get {S : Type} : M S S := fun s => (Ok s, s).
Definition put {S : Type} (s : S) : M S unit := fun _ => (Ok tt, s).
Definition modify {S : Type} (f : S -> S) : M S unit := fun s => (Ok tt, f s).
Definition panic {S A : Type} (msg : string) : M S A := fun s => (Panic msg, s).
Definition fatal {S A : Type} (msg : string) : M S A := fun s => (Fatal msg, s).
Definition blocked {S A : Type} (why : string) : M S A := fun s => (Blocked why, s).

(** Run a computation on a component [T] of the state [S]. *)
Definition zoom {S T A : Type} (proj : S -> T) (upd : T -> S -> S) (m : M T A)
  : M S A :=
  fun s => let '(r, t') := m (proj s) in (r, upd t' s).

Declare Scope go_scope.
Delimit Scope go_scope with go.
Notation "x <- m ;; k" := (bind m (fun x => k))
  (at level 100, m at next level, right associativity) : go_scope.
Notation "m ;; k" := (bind m (fun _ => k))
  (at level 100, right associativity) : go_scope.
Local Open Scope go_scope.

(** ** The parts of Go's [strings], [bytes] and [strconv] the proxy uses *)

Module GoStrings.

Definition byte_of (c : ascii) : N := N_of_ascii c.

Definition isAsciiSpace (c : ascii) : bool :=
  let n := byte_of c in
  ((9 <=? n) && (n <=? 13) || (n =? 32))%N.

(** Number of bytes of the white-space rune at the head of [s], or [0]
    when the head is not white space.  [unicode.IsSpace] holds of
    U+0009..U+000D, U+0020, U+0085, U+00A0, U+1680, U+2000..U+200A,
    U+2028, U+2029, U+202F, U+205F and U+3000; the cases below are their
    UTF-8 encodings. *)
Definition spaceWidth (s : string) : nat :=
  match s with
  | EmptyString => 0%nat
  | String c r =>
      if isAsciiSpace c then 1%nat
      else
        match byte_of c, r with
        | 194%N, String d _ =>
            if ((byte_of d =? 133) || (byte_of d =? 160))%N then 2%nat else 0%nat
        | 225%N, String d (String e _) =>
            if ((byte_of d =? 154) && (byte_of e =? 128))%N then 3%nat else 0%nat
        | 226%N, String d (String e _) =>
            let e' := byte_of e in
            if (byte_of d =? 128)%N then
              if ((128 <=? e') && (e' <=? 138) || (e' =? 168) || (e' =? 169)
                  || (e' =? 175))%N then 3%nat else 0%nat
            else if ((byte_of d =? 129) && (e' =? 159))%N then 3%nat
            else 0%nat
        | 227%N, String d (String e _) =>
            if ((byte_of d =? 128) && (byte_of e =? 128))%N then 3%nat else 0%nat
        | _, _ => 0%nat
        end
  end.

Definition flush (cur : string) : list string :=
  match cur with
  | EmptyString => []
  | _ => [cur]
  end.

(** [strings.Fields]: [skip] counts the bytes of a multi-byte white-space
    rune still to be passed over, [cur] is the field being collected. *)
Fixpoint FieldsFrom (skip : nat) (cur : string) (s : string) : list string :=
  match s with
  | EmptyString => flush cur
  | String c s' =>
      match skip with
      | S k => FieldsFrom k cur s'
      | O =>
          match spaceWidth s with
          | O => FieldsFrom 0 (cur +:+ String c EmptyString) s'
          | S k => flush cur ++ FieldsFrom k EmptyString s'
          end
      end
  end.

Definition Fields (s : string) : list string := FieldsFrom 0 EmptyString s.

(** [bytes.HasPrefix] / [strings.HasPrefix] *)
Fixpoint HasPrefix (s prefix : string) : bool :=
  match prefix, s with
  | EmptyString, _ => true
  | String p prefix', String c s' => Ascii.eqb p c && HasPrefix s' prefix'
  | String _ _, EmptyString => false
  end.

(** [strings.Contains] *)
Fixpoint Contains (s substr : string) : bool :=
  HasPrefix s substr ||
  match s with
  | EmptyString => false
  | String _ s' => Contains s' substr
  end.

(** The pieces of [s] between occurrences of the one-byte separator
    [sep], at most [S more] of them: the last piece is the unsplit rest. *)
Fixpoint splitByte (more : nat) (sep : ascii) (cur : string) (s : string)
  : list string :=
  match s with
  | EmptyString => [cur]
  | String c s' =>
      match more with
      | O => [cur +:+ s]
      | S more' =>
          if Ascii.eqb c sep then cur :: splitByte more' sep EmptyString s'
          else splitByte more sep (cur +:+ String c EmptyString) s'
      end
  end.

(** [strings.Split(s, sep)] for a one-byte [sep]. *)
Definition Split (s : string) (sep : ascii) : list string :=
  splitByte (String.length s) sep EmptyString s.

(** [strings.SplitN(s, sep, n)] for a one-byte [sep] and [n > 0]. *)
Definition SplitN (s : string) (sep : ascii) (n : nat) : list string :=
  match n with
  | O => []
  | S more => splitByte more sep EmptyString s
  end.

(** [strings.Join] *)
Fixpoint Join (elems : list string) (sep : string) : string :=
  match elems with
  | [] => EmptyString
  | [e] => e
  | e :: rest => e +:+ sep +:+ Join rest sep
  end.

Definition isDigit (c : ascii) : bool :=
  ((48 <=? byte_of c) && (byte_of c <=? 57))%N.

Definition digitVal (c : ascii) : Z := Z.of_N (byte_of c) - 48.

(** Value of a string of decimal digits read left to right from [acc];
    [None] when a byte is not a digit. *)
Fixpoint digitsFrom (acc : Z) (s : string) : option Z :=
  match s with
  | EmptyString => Some acc
  | String c s' =>
      if isDigit c then digitsFrom (acc * 10 + digitVal c) s' else None
  end.

Definition minInt : Z := - 2 ^ 63.
Definition maxInt : Z := 2 ^ 63 - 1.

(** [strconv.Atoi] on a 64-bit platform: an optional sign, then one or
    more decimal digits, the value within [int]; [None] stands for the
    syntax and range errors. *)
Definition Atoi (s : string) : option Z :=
  let '(neg, digits) :=
    match s with
    | String "-"%char r => (true, r)
    | String "+"%char r => (false, r)
    | _ => (false, s)
    end in
  match digits with
  | EmptyString => None
  | _ =>
      match digitsFrom 0 digits with
      | None => None
      | Some n =>
          let v := if neg then - n else n in
          if (minInt <=? v) && (v <=? maxInt) then Some v else None
      end
  end.

(** [strings.TrimSpace]: leading white-space runes are dropped one after the
    other; at the other end the longest tail made only of white-space runes
    is dropped. *)
Fixpoint trimLeftFrom (skip : nat) (s : string) : string :=
  match s with
  | EmptyString => EmptyString
  | String _ s' =>
      match skip with
      | S k => trimLeftFrom k s'
      | O =>
          match spaceWidth s with
          | O => s
          | S k => trimLeftFrom k s'
          end
      end
  end.

Fixpoint allSpaceFrom (skip : nat) (s : string) : bool :=
  match s with
  | EmptyString => match skip with O => true | S _ => false end
  | String _ s' =>
      match skip with
      | S k => allSpaceFrom k s'
      | O =>
          match spaceWidth s with
          | O => false
          | S k => allSpaceFrom k s'
          end
      end
  end.

Fixpoint trimRight (s : string) : string :=
  match s with
  | EmptyString => EmptyString
  | String c s' => if allSpaceFrom 0 s then EmptyString else String c (trimRight s')
  end.

Definition TrimSpace (s : string) : string := trimRight (trimLeftFrom 0 s).

End GoStrings.

(** ** [ParseRedirectInfo] (session.go) *)

Module Redirect.
Import GoStrings.

(** [ParseRedirectInfo]: [glog.Fatalf] ends the process, so the lines
    after a failed check are not reached. *)
Definition ParseRedirectInfo (msg : string) : Res (Z * string) :=
  let parts := Fields msg in
  if negb (length parts =? 3)%nat then
    Fatal ("invalid redirect message: " +:+ msg)
  else
    match Atoi (nth 1 parts EmptyString) with
    | None => Fatal ("invalid redirect message: " +:+ msg)
    | Some slot => Ok (slot, nth 2 parts EmptyString)
    end.

End Redirect.

(** ** RESP values, pipeline requests and responses *)

Module Resp.

Definition crlf : string := String "013" (String "010" EmptyString).

Definition T_SimpleString : ascii := "+"%char.
Definition T_Error : ascii := "-"%char.

(** [resp.Command]: the argument vector of a client command. *)
Record Command := mkCommand { Args : list string }.

(** [cmd.Name()] is [cmd.Args[0]]. *)
Definition Name (cmd : Command) : string := nth 0 (Args cmd) EmptyString.

(** Modelled from the spec: the RESP codec ([proto] package) is not part
    of the sources.  Section 8 gives the wire form of a command as a RESP
    array of bulk strings, [*2\r\n$3\r\nGET\r\n$1\r\nk\r\n]. *)
Definition bulk (s : string) : string :=
  "$" +:+ pretty (String.length s) +:+ crlf +:+ s +:+ crlf.

Definition Format (cmd : Command) : string :=
  "*" +:+ pretty (length (Args cmd)) +:+ crlf
      +:+ String.concat EmptyString (bulk <$> Args cmd).

(** [resp.Data] restricted to the two fields the session builds. *)
Record Data := mkData { T : ascii; Str : string }.

(** Modelled from the spec: [resp.NewObjectFromData(d).Raw()] for simple
    strings and errors is the type byte, the text and CRLF (glossary,
    RESP reply types).  An object is represented by its raw bytes. *)
Definition NewObjectFromData (d : Data) : string :=
  String (T d) (Str d) +:+ crlf.

(** First byte of a reply that was read, as [resp.ReadData] stores it in
    [data.T]. *)
Definition replyType (raw : string) : option ascii :=
  match raw with
  | EmptyString => None
  | String c _ => Some c
  end.

End Resp.

Module Pipeline.
Import Resp.

(** [PipelineRequest].  [parentCmd] and [backQ] are references: the
    coordinator and the channel are looked up in the world by identity.
    [wg] is always the session's [reqWg]. *)
Record PipelineRequest := mkReq {
  cmd : Command;
  readOnly : bool;
  slot : Z;
  seq : Z;
  subSeq : nat;
  backQ : option nat;
  parentCmd : option nat
}.

(** [PipelineResponse]: [rsp] is the raw reply, [err] the transport error. *)
Record PipelineResponse := mkRsp {
  ctx : PipelineRequest;
  rsp : option string;
  err : option string
}.

Definition emptyCommand : Command := mkCommand [].

(** A request that carries only a sequence number, as the locally
    answered commands build it: [&PipelineRequest{seq: ..., wg: ...}]. *)
Definition localReq (n : Z) : PipelineRequest :=
  mkReq emptyCommand false 0 n 0 None None.

(** Modelled from the spec: the coordinator of a multi-key or fan-out
    command ([MultiCmd], not part of the sources) holds the original
    command, the number of sub-requests and the sub-responses received so
    far, by [subSeq]; it is finished when all have arrived. *)
Record MultiCmd := mkMultiCmd {
  origCmd : Command;
  expected : nat;
  subResponses : gmap nat PipelineResponse
}.

Definition OnSubCmdFinished (mc : MultiCmd) (r : PipelineResponse) : MultiCmd :=
  mkMultiCmd (origCmd mc) (expected mc)
             (<[subSeq (ctx r) := r]> (subResponses mc)).

Definition Finished (mc : MultiCmd) : bool :=
  bool_decide (size (subResponses mc) = expected mc).

(** Modelled from the spec: the coalesced reply of the array family (the
    sub-replies in [subSeq] order inside one RESP array). *)
Definition CoalesceRsp (mc : MultiCmd) : string :=
  "*" +:+ pretty (expected mc) +:+ crlf
      +:+ String.concat EmptyString
            ((fun i => default EmptyString (subResponses mc !! i ≫= rsp))
               <$> List.seq 0%nat (expected mc)).

End Pipeline.

(** ** The network, the channels and the event trace *)

Module IO.
Import Resp Pipeline.

(** Outcome of one network operation: a dial or a write that succeeds
    ignores [reply]; a read that succeeds returns it. *)
Inductive IOResult := IOok (reply : string) | IOerr (msg : string).

Record Conn := mkConn { connId : nat; remote : string }.

(** [EvClientWrite n buf] is [s.Write(buf)] on the client connection; [n]
    is the sequence number of the response being handled (ghost data). *)
Inductive Event :=
| EvDial (server : string)
| EvConnWrite (c : Conn) (buf : string)
| EvConnRead (c : Conn)
| EvConnClose (c : Conn)
| EvSleep (ms : Z)
| EvTriggerReloadSlots
| EvClientWrite (n : Z) (buf : string)
| EvClientClose.

(** A buffered channel of [struct{}]: only the number of buffered values
    matters. *)
Record Chan := mkChan { capacity : nat; buffered : nat }.

Record World := mkWorld {
  script : list IOResult;
  trace : list Event;
  nextConn : nat;
  slotReloadChan : Chan;
  chans : gmap nat (list PipelineResponse);
  coords : gmap nat MultiCmd
}.

Definition set_script (x : list IOResult) (w : World) : World :=
  mkWorld x (trace w) (nextConn w) (slotReloadChan w) (chans w) (coords w).
Definition set_trace (x : list Event) (w : World) : World :=
  mkWorld (script w) x (nextConn w) (slotReloadChan w) (chans w) (coords w).
Definition set_nextConn (x : nat) (w : World) : World :=
  mkWorld (script w) (trace w) x (slotReloadChan w) (chans w) (coords w).
Definition set_slotReloadChan (x : Chan) (w : World) : World :=
  mkWorld (script w) (trace w) (nextConn w) x (chans w) (coords w).
Definition set_chans (x : gmap nat (list PipelineResponse)) (w : World) : World :=
  mkWorld (script w) (trace w) (nextConn w) (slotReloadChan w) x (coords w).
Definition set_coords (x : gmap nat MultiCmd) (w : World) : World :=
  mkWorld (script w) (trace w) (nextConn w) (slotReloadChan w) (chans w) x.

Definition emit (e : Event) : M World unit :=
  modify (fun w => set_trace (trace w ++ [e]) w).

(** The next scripted outcome; an exhausted script answers [EOF]. *)
Definition io : M World IOResult :=
  fun w =>
    match script w with
    | [] => (Ok (IOerr "EOF"), w)
    | r :: rest => (Ok r, set_script rest w)
    end.

(** [net.Dial]: a fresh connection, or the error. *)
Definition dial (server : string) : M World (Conn + string) :=
  emit (EvDial server) ;;
  r <- io ;;
  match r with
  | IOerr e => ret (inr e)
  | IOok _ =>
      w <- get ;;
      put (set_nextConn (S (nextConn w)) w) ;;
      ret (inl (mkConn (nextConn w) server))
  end.

(** [conn.Write(buf)] (and a buffered write followed by its flush). *)
Definition connWrite (c : Conn) (buf : string) : M World (option string) :=
  emit (EvConnWrite c buf) ;;
  r <- io ;;
  match r with
  | IOerr e => ret (Some e)
  | IOok _ => ret None
  end.

(** Reading one RESP reply from [c]. *)
Definition connRead (c : Conn) : M World (string + string) :=
  emit (EvConnRead c) ;;
  r <- io ;;
  match r with
  | IOerr e => ret (inr e)
  | IOok raw => ret (inl raw)
  end.

Definition connClose (c : Conn) : M World unit := emit (EvConnClose c).

(** [q <- r] on a response channel.  The channels are taken to have room
    (section 5 of the design: unbounded); a send on the [nil] channel
    never proceeds. *)
Definition send (q : option nat) (r : PipelineResponse) : M World unit :=
  match q with
  | None => blocked "send on nil channel"
  | Some i =>
      modify (fun w => set_chans (<[i := default [] (chans w !! i) ++ [r]]> (chans w)) w)
  end.

End IO.

(** ** [ValkeyConn] (valkey_conn.go) *)

Module Valkey.
Import Resp IO.

Record ValkeyConn := mkValkeyConn {
  initCap : Z;
  maxIdle : Z;
  connTimeout : Z;
  password : string;
  sendReadOnly : bool
}.

Definition VALKEY_CMD_READ_ONLY : Command := mkCommand ["READONLY"].
Definition VALKEY_CMD_CLUSTER_NODES : Command := mkCommand ["CLUSTER"; "NODES"].
Definition VALKEY_CMD_CLUSTER_SLOTS : Command := mkCommand ["CLUSTER"; "SLOTS"].

Definition Auth (cp : ValkeyConn) (pw : string) : bool :=
  String.eqb (password cp) pw.

(** [ValkeyConn.Request]: the reply, or the error. *)
Definition Request (cp : ValkeyConn) (command : Command) (conn : Conn)
  : M World (string + string) :=
  werr <- connWrite conn (Format command) ;;
  match werr with
  | Some e => ret (inr e)
  | None =>
      r <- connRead conn ;;
      match r with
      | inr e => ret (inr e)
      | inl raw =>
          if bool_decide (replyType raw = Some T_Error) then
            ret (inr ("post connect error: " +:+ Name command +:+ " resp is not OK"))
          else ret (inl raw)
      end
  end.

Definition postConnect (cp : ValkeyConn) (conn : Conn) : M World (Conn + string) :=
  a <- (if negb (String.eqb (password cp) EmptyString) then
          Request cp (mkCommand ["AUTH"; password cp]) conn
        else ret (inl EmptyString)) ;;
  match a with
  | inr e => connClose conn ;; ret (inr e)
  | inl _ =>
      r <- Request cp VALKEY_CMD_READ_ONLY conn ;;
      match r with
      | inr e => connClose conn ;; ret (inr e)
      | inl _ => ret (inl conn)
      end
  end.

Definition Conn (cp : ValkeyConn) (server : string) : M World (Conn + string) :=
  d <- dial server ;;
  match d with
  | inr e => ret (inr e)
  | inl conn => postConnect cp conn
  end.

End Valkey.

(** ** [BackendServer] (backend.go) *)

Module Backend.
Import Resp Pipeline IO.

(** [conn] stands for the three fields [conn], [r] and [w], which
    [initRWConn] sets together and nothing else sets. *)
Record BackendServer := mkBackend {
  inflight : list PipelineRequest;
  server : string;
  conn : option Conn;
  valkeyConn : Valkey.ValkeyConn
}.

Definition set_inflight (x : list PipelineRequest) (tr : BackendServer) :=
  mkBackend x (server tr) (conn tr) (valkeyConn tr).
Definition set_conn (x : option Conn) (tr : BackendServer) :=
  mkBackend (inflight tr) (server tr) x (valkeyConn tr).

Definition initRWConn (tr : BackendServer) (c : Conn) : M World BackendServer :=
  match conn tr with
  | Some old => connClose old
  | None => ret tt
  end ;;
  ret (set_conn (Some c) tr).

Definition NewBackendServer (server : string) (vc : Valkey.ValkeyConn)
  : M World BackendServer :=
  let tr := mkBackend [] server None vc in
  c <- Valkey.Conn vc server ;;
  match c with
  | inr _ => ret tr
  | inl conn => initRWConn tr conn
  end.

(** [tr.w.Write(buf)] then [tr.w.Flush()]: each may fail. *)
Definition writeToBackend (tr : BackendServer) (plReq : PipelineRequest)
  : M World (BackendServer * option string) :=
  let tr := set_inflight (inflight tr ++ [plReq]) tr in
  match conn tr with
  | None => ret (tr, Some "init task runner connection error")
  | Some c =>
      werr <- connWrite c (Format (cmd plReq)) ;;
      match werr with
      | Some e => ret (tr, Some e)
      | None =>
          r <- io ;;
          match r with
          | IOerr e => ret (tr, Some e)
          | IOok _ => ret (tr, None)
          end
      end
  end.

Fixpoint drainInflight (err : string) (l : list PipelineRequest) : M World unit :=
  match l with
  | [] => ret tt
  | plReq :: rest =>
      send (backQ plReq) (mkRsp plReq None (Some err)) ;;
      drainInflight err rest
  end.

Definition cleanupInflight (tr : BackendServer) (err : string)
  : M World BackendServer :=
  drainInflight err (inflight tr) ;;
  ret (set_inflight [] tr).

Definition tryRecover (tr : BackendServer) (err : string)
  : M World (BackendServer * option string) :=
  tr <- cleanupInflight tr err ;;
  c <- Valkey.Conn (valkeyConn tr) (server tr) ;;
  match c with
  | inr e => emit (EvSleep 100) ;; ret (tr, Some e)
  | inl conn => tr <- initRWConn tr conn ;; ret (tr, None)
  end.

(** The error path shared by the two failure sites of [Request]: the
    reconnect error when the reconnect fails, the original error
    otherwise. *)
Definition recoverAndFail (tr : BackendServer) (err : string)
  : M World (BackendServer * (PipelineResponse + string)) :=
  p <- tryRecover tr err ;;
  let '(tr, rerr) := p in
  match rerr with
  | Some e => ret (tr, inr e)
  | None => ret (tr, inr err)
  end.

Definition Request (tr : BackendServer) (req : PipelineRequest)
  : M World (BackendServer * (PipelineResponse + string)) :=
  p <- writeToBackend tr req ;;
  let '(tr, werr) := p in
  match werr with
  | Some e => recoverAndFail tr e
  | None =>
      match conn tr with
      | None => panic "nil reader"
      | Some c =>
          r <- connRead c ;;
          match r with
          | inr e => recoverAndFail tr e
          | inl raw =>
              match inflight tr with
              | [] => panic "inflight.Remove(nil)"
              | plReq :: rest =>
                  ret (set_inflight rest tr, inl (mkRsp plReq (Some raw) None))
              end
          end
      end
  end.

End Backend.


(** ** [Dispatcher] (dispatcher.go) *)

Module Dispatcher.
Import GoStrings Resp Pipeline IO.

Definition READ_PREFER_MASTER : Z := 0.
Definition READ_PREFER_SLAVE : Z := 1.
Definition READ_PREFER_SLAVE_IDC : Z := 2.
Definition CLUSTER_NODES_FIELD_NUM_IP_PORT : nat := 1.
Definition CLUSTER_NODES_FIELD_NUM_FLAGS : nat := 2.
Definition CLUSTER_NODES_FIELD_SPLIT_NUM : nat := 4.

(** Modelled from the spec: [SlotInfo] is declared outside the sources; the
    data model gives it as [{ start, end, write: endpoint, read: [endpoint] }]. *)
Record SlotInfo := mkSlotInfo {
  start : Z;
  end_ : Z;
  write : string;
  read : list string
}.

Definition set_read (x : list string) (si : SlotInfo) : SlotInfo :=
  mkSlotInfo (start si) (end_ si) (write si) x.

Record Dispatcher := mkDispatcher {
  startupNodes : list string;
  slotReloadInterval : Z;
  valkeyConn : Valkey.ValkeyConn;
  readPrefer : Z
}.

(** [make(chan struct{}, n)] *)
Definition make_chan (n : nat) : Chan := mkChan n 0.

(** [NewDispatcher]: the dispatcher and its reload channel of capacity 1
    (kept in the world, where the sessions reach it). *)
Definition NewDispatcher (startupNodes : list string) (slotReloadInterval : Z)
    (vc : Valkey.ValkeyConn) (readPrefer : Z) : M World Dispatcher :=
  modify (set_slotReloadChan (make_chan 1)) ;;
  ret (mkDispatcher startupNodes slotReloadInterval vc readPrefer).

(** A send that does not wait: [None] when the buffer is full. *)
Definition trySend (c : Chan) : option Chan :=
  if (buffered c <? capacity c)%nat then Some (mkChan (capacity c) (S (buffered c)))
  else None.

(** A receive that does not wait: [None] when nothing is buffered. *)
Definition tryRecv (c : Chan) : option Chan :=
  match buffered c with
  | O => None
  | S n => Some (mkChan (capacity c) n)
  end.

(** [ch <- struct{}{}] outside a [select]: waits for room. *)
Definition blockingSend : M World unit :=
  w <- get ;;
  match trySend (slotReloadChan w) with
  | Some c => put (set_slotReloadChan c w)
  | None => blocked "send on a full channel"
  end.

(** [TriggerReloadSlots]: [select] with a [default] case. *)
Definition TriggerReloadSlots : M World unit :=
  emit EvTriggerReloadSlots ;;
  w <- get ;;
  match trySend (slotReloadChan w) with
  | Some c => put (set_slotReloadChan c w)
  | None => ret tt
  end.

(** *** The read-preference rewrite of [doReload] *)

(** [aliveNodes[...] = true] for every line of CLUSTER NODES whose flags do
    not contain [fail]; indexing a line of fewer than three fields panics. *)
Fixpoint markAlive (lines : list string) (aliveNodes : gmap string bool)
  : Res (gmap string bool) :=
  match lines with
  | [] => Ok aliveNodes
  | line :: rest =>
      let elements := SplitN line " " CLUSTER_NODES_FIELD_SPLIT_NUM in
      match elements !! CLUSTER_NODES_FIELD_NUM_FLAGS with
      | None => Panic "index out of range"
      | Some flags =>
          if negb (Contains flags "fail") then
            match elements !! CLUSTER_NODES_FIELD_NUM_IP_PORT with
            | None => Panic "index out of range"
            | Some ipport => markAlive rest (<[ipport := true]> aliveNodes)
            end
          else markAlive rest aliveNodes
      end
  end.

(** [aliveNodes[node]]: a missing key reads [false]. *)
Definition isAlive (aliveNodes : gmap string bool) (node : string) : bool :=
  default false (aliveNodes !! node).

(** [segments[:2]] of the result of [strings.SplitN(_, ".", 3)] on a
    non-empty string: [SplitN] allocates [min(3, len+1)] slots, at least
    two, so the reslice is within capacity and reads the empty string in
    a slot that was not filled. *)
Definition firstTwo (segments : list string) : list string :=
  match segments with
  | [] => []
  | [a] => [a; EmptyString]
  | a :: b :: _ => [a; b]
  end.

Definition localIPPrefixOf (localIP : string) : string :=
  if (0 <? String.length localIP)%nat then
    Join (firstTwo (SplitN localIP "." 3)) "." +:+ "."
  else localIP.

Fixpoint filterRead (readPrefer : Z) (localIPPrefix : string)
    (aliveNodes : gmap string bool) (nodes readNodes : list string) : list string :=
  match nodes with
  | [] => readNodes
  | node :: rest =>
      if negb (isAlive aliveNodes node) then
        filterRead readPrefer localIPPrefix aliveNodes rest readNodes
      else if (readPrefer =? READ_PREFER_SLAVE_IDC)
              && negb (HasPrefix node localIPPrefix) then
        filterRead readPrefer localIPPrefix aliveNodes rest readNodes
      else
        filterRead readPrefer localIPPrefix aliveNodes rest (readNodes ++ [node])
  end.

(** The body of the last loop of [doReload], for one [SlotInfo];
    [localIP] is the result of [LocalIP()], declared outside the sources. *)
Definition rewriteRead (readPrefer : Z) (localIP : string)
    (aliveNodes : gmap string bool) (si : SlotInfo) : SlotInfo :=
  if readPrefer =? READ_PREFER_MASTER then set_read [write si] si
  else if (readPrefer =? READ_PREFER_SLAVE) || (readPrefer =? READ_PREFER_SLAVE_IDC) then
    let localIPPrefix := localIPPrefixOf localIP in
    let readNodes := filterRead readPrefer localIPPrefix aliveNodes (read si) [] in
    let readNodes := if (length readNodes =? 0)%nat then [write si] else readNodes in
    set_read readNodes si
  else si.

(** [doReload] from the point where both replies have been read:
    [nodes] is [data.String] of the CLUSTER NODES reply, [slotInfos] the
    records built from the CLUSTER SLOTS reply. *)
Definition reloadFilter (readPrefer : Z) (localIP : string) (nodes : string)
    (slotInfos : list SlotInfo) : Res (list SlotInfo) :=
  let lines := Split (TrimSpace nodes) "010" in
  match markAlive lines ∅ with
  | Ok aliveNodes => Ok (rewriteRead readPrefer localIP aliveNodes <$> slotInfos)
  | Panic msg => Panic msg
  | Fatal msg => Fatal msg
  | Blocked why => Blocked why
  end.

End Dispatcher.


(** *** The refresh loop on a timeline

    Logical time is in milliseconds.  [triggers] are the instants, in
    ascending order, at which sessions will call [TriggerReloadSlots];
    [reloads] records when and why the loop started a reload
    ([reloadTopology] itself, and the hand-over on [slotInfoChan], take no
    logical time here). *)

Module ReloadLoop.
Import IO Dispatcher.

Inductive Cause := BySignal | ByTimer.

Record Timeline := mkTimeline {
  now : Z;
  triggers : list Z;
  world : World;
  reloads : list (Z * Cause)
}.

Definition set_now (x : Z) (tl : Timeline) : Timeline :=
  mkTimeline x (triggers tl) (world tl) (reloads tl).
Definition set_triggers (x : list Z) (tl : Timeline) : Timeline :=
  mkTimeline (now tl) x (world tl) (reloads tl).
Definition set_world (x : World) (tl : Timeline) : Timeline :=
  mkTimeline (now tl) (triggers tl) x (reloads tl).
Definition set_reloads (x : list (Z * Cause)) (tl : Timeline) : Timeline :=
  mkTimeline (now tl) (triggers tl) (world tl) x.

(** The sessions' calls up to instant [t]; the calls still to come are
    returned. *)
Fixpoint callsUntil (t : Z) (ts : list Z) : M World (list Z) :=
  match ts with
  | [] => ret []
  | t' :: rest =>
      if t' <=? t then TriggerReloadSlots ;; callsUntil t rest
      else ret ts
  end.

(** Let time pass until [t]. *)
Definition advanceTo (t : Z) : M Timeline unit :=
  tl <- get ;;
  rest <- zoom world set_world (callsUntil t (triggers tl)) ;;
  modify (fun tl => set_now (Z.max (now tl) t) (set_triggers rest tl)).

(** The channel of [time.After(d)]: it delivers one value, at [fireAt], and
    is never closed. *)
Record Timer := mkTimer { fireAt : Z; delivered : bool }.

Definition timeAfter (d : Z) : M Timeline Timer :=
  tl <- get ;;
  ret (mkTimer (now tl + d) false).

(** [<-ch] on such a channel: once its value has been received, no further
    receive can proceed. *)
Definition recvTimer (tm : Timer) : M Timeline Timer :=
  if delivered tm then blocked "receive on a timer channel that has delivered"
  else advanceTo (fireAt tm) ;; ret (mkTimer (fireAt tm) true).

Definition reload (c : Cause) : M Timeline unit :=
  modify (fun tl => set_reloads (reloads tl ++ [(now tl, c)]) tl).

(** Taking the buffered signal, if there is one. *)
Definition takeSignal : M Timeline bool :=
  tl <- get ;;
  match tryRecv (slotReloadChan (world tl)) with
  | Some c => put (set_world (set_slotReloadChan c (world tl)) tl) ;; ret true
  | None => ret false
  end.

Definition periodicReloadInterval : Z := 60 * 1000.

(** The [select] of the loop body: the signal if one is buffered or arrives
    before the periodic timer fires, the timer otherwise.  (The sources
    never close [slotReloadChan], so the [!ok] branch is not reached.) *)
Definition selectAndReload : M Timeline unit :=
  periodic <- timeAfter periodicReloadInterval ;;
  got <- takeSignal ;;
  if got : bool then reload BySignal
  else
    tl <- get ;;
    match triggers tl with
    | t :: _ =>
        if t <? fireAt periodic then
          advanceTo t ;;
          got <- takeSignal ;;
          if got : bool then reload BySignal
          else advanceTo (fireAt periodic) ;; reload ByTimer
        else advanceTo (fireAt periodic) ;; reload ByTimer
    | [] => advanceTo (fireAt periodic) ;; reload ByTimer
    end.

(** [for range tick { select ... }]: [fuel] bounds the iterations that are
    followed. *)
Fixpoint rangeTimer (fuel : nat) (tick : Timer) : M Timeline unit :=
  match fuel with
  | O => ret tt
  | S fuel' =>
      tick' <- recvTimer tick ;;
      selectAndReload ;;
      rangeTimer fuel' tick'
  end.

(** [slotsReloadLoop]: [for range time.After(d.slotReloadInterval) { ... }] *)
Definition slotsReloadLoop (d : Dispatcher) (fuel : nat) : M Timeline unit :=
  tick <- timeAfter (slotReloadInterval d) ;;
  rangeTimer fuel tick.

End ReloadLoop.


(** ** [Session] (session.go): state and the reader side *)

Module Session.
Import GoStrings Redirect Resp Pipeline IO.

Definition OK : string := "OK".
Definition MOVED : string := "-MOVED".
Definition ASK : string := "-ASK".
Definition ASK_CMD_BYTES : string := "+ASKING" +:+ crlf.
Definition AUTH_CMD_ERR : string := "ERR invalid password".
Definition UNKNOWN_CMD_ERR : string := "ERR unknown command".
Definition ARGUMENTS_ERR : string := "ERR wrong number of arguments".
Definition NOAUTH_ERR : string := "NOAUTH Authentication required.".

(** The command classification ([command.go]), the key hash and the
    splitting of a multi-key command are declared outside the sources; they
    are parameters of the session. *)
Class CommandTable := {
  CmdAuthRequired : Command -> bool;
  CmdUnknown : Command -> bool;
  CmdReadAll : Command -> bool;
  IsMultiCmd : Command -> bool * nat;
  CmdReadOnly : Command -> bool;
  CmdFlag : Command -> Z;
  CMD_FLAG_GENERAL : Z;
  CMD_FLAG_READ : Z;
  Key2Slot : string -> Z;
  SubCmd : Command -> nat -> nat -> Command + string
}.

(** Modelled from the spec: the slot table is declared outside the sources;
    a snapshot answers the three lookups the session makes. *)
Record SlotTable := mkSlotTable {
  ReadServer : Z -> string;
  WriteServer : Z -> string;
  ServerSlots : list Z
}.

(** [reqWg] is the counter of the wait group; [rspHeap] is kept sorted by
    [seq] (see [heapPush]). *)
Record Session := mkSession {
  auth : bool;
  reqSeq : Z;
  rspSeq : Z;
  backQ : nat;
  closed : bool;
  reqWg : Z;
  rspHeap : list PipelineResponse;
  valkeyConn : Valkey.ValkeyConn;
  multiCmd : option (list Command);
  multiCmdErr : bool
}.

Definition set_auth (x : bool) (s : Session) : Session :=
  mkSession x (reqSeq s) (rspSeq s) (backQ s) (closed s) (reqWg s) (rspHeap s)
            (valkeyConn s) (multiCmd s) (multiCmdErr s).
Definition set_reqSeq (x : Z) (s : Session) : Session :=
  mkSession (auth s) x (rspSeq s) (backQ s) (closed s) (reqWg s) (rspHeap s)
            (valkeyConn s) (multiCmd s) (multiCmdErr s).
Definition set_rspSeq (x : Z) (s : Session) : Session :=
  mkSession (auth s) (reqSeq s) x (backQ s) (closed s) (reqWg s) (rspHeap s)
            (valkeyConn s) (multiCmd s) (multiCmdErr s).
Definition set_closed (x : bool) (s : Session) : Session :=
  mkSession (auth s) (reqSeq s) (rspSeq s) (backQ s) x (reqWg s) (rspHeap s)
            (valkeyConn s) (multiCmd s) (multiCmdErr s).
Definition set_reqWg (x : Z) (s : Session) : Session :=
  mkSession (auth s) (reqSeq s) (rspSeq s) (backQ s) (closed s) x (rspHeap s)
            (valkeyConn s) (multiCmd s) (multiCmdErr s).
Definition set_rspHeap (x : list PipelineResponse) (s : Session) : Session :=
  mkSession (auth s) (reqSeq s) (rspSeq s) (backQ s) (closed s) (reqWg s) x
            (valkeyConn s) (multiCmd s) (multiCmdErr s).
Definition set_multiCmd (x : option (list Command)) (s : Session) : Session :=
  mkSession (auth s) (reqSeq s) (rspSeq s) (backQ s) (closed s) (reqWg s) (rspHeap s)
            (valkeyConn s) x (multiCmdErr s).
Definition set_multiCmdErr (x : bool) (s : Session) : Session :=
  mkSession (auth s) (reqSeq s) (rspSeq s) (backQ s) (closed s) (reqWg s) (rspHeap s)
            (valkeyConn s) (multiCmd s) x.

(** One session, the world it talks to, and the dispatcher's slot table and
    pool of backend servers. *)
Record Proxy := mkProxy {
  world : World;
  sess : Session;
  slotTable : SlotTable;
  backendServerPool : gmap string (list Backend.BackendServer)
}.

Definition set_world (x : World) (p : Proxy) : Proxy :=
  mkProxy x (sess p) (slotTable p) (backendServerPool p).
Definition set_sess (x : Session) (p : Proxy) : Proxy :=
  mkProxy (world p) x (slotTable p) (backendServerPool p).
Definition set_pool (x : gmap string (list Backend.BackendServer)) (p : Proxy) : Proxy :=
  mkProxy (world p) (sess p) (slotTable p) x.

Definition inWorld {A : Type} (m : M World A) : M Proxy A := zoom world set_world m.
Definition getSess : M Proxy Session := p <- get ;; ret (sess p).
Definition modSess (f : Session -> Session) : M Proxy unit :=
  modify (fun p => set_sess (f (sess p)) p).

(** [int64] arithmetic wraps around. *)
Definition int64 (z : Z) : Z := (z + 2 ^ 63) mod 2 ^ 64 - 2 ^ 63.

Definition liftRes {S A : Type} (r : Res A) : M S A := fun s => (r, s).

Definition getNextReqSeq : M Proxy Z :=
  s <- getSess ;;
  modSess (set_reqSeq (int64 (reqSeq s + 1))) ;;
  ret (reqSeq s).

Definition wgAdd (n : Z) : M Proxy unit := modSess (fun s => set_reqWg (reqWg s + n) s).

(** [s.backQ <- plRsp] *)
Definition toBackQ (r : PipelineResponse) : M Proxy unit :=
  s <- getSess ;;
  inWorld (send (Some (backQ s)) r).

Definition handleErrorCmd (msg : string) : M Proxy unit :=
  n <- getNextReqSeq ;;
  wgAdd 1 ;;
  toBackQ (mkRsp (localReq n) (Some (NewObjectFromData (mkData T_Error msg))) None).

Definition handleSimpleStringCmd (msg : string) : M Proxy unit :=
  wgAdd 1 ;;
  n <- getNextReqSeq ;;
  toBackQ (mkRsp (localReq n) (Some (NewObjectFromData (mkData T_SimpleString msg))) None).

(** Modelled from the spec: [BackendServerPool] is declared outside the
    sources.  [Get] leases an idle backend server of the endpoint or
    creates one; [Put] returns it. *)
Definition poolGet (server : string) : M Proxy (Backend.BackendServer + string) :=
  p <- get ;;
  match backendServerPool p !! server with
  | Some (b :: rest) =>
      put (set_pool (<[server := rest]> (backendServerPool p)) p) ;;
      ret (inl b)
  | _ =>
      b <- inWorld (Backend.NewBackendServer server (valkeyConn (sess p))) ;;
      ret (inl b)
  end.

Definition poolPut (b : Backend.BackendServer) : M Proxy unit :=
  modify (fun p =>
    let k := Backend.server b in
    set_pool (<[k := default [] (backendServerPool p !! k) ++ [b]]> (backendServerPool p)) p).

Definition Schedule (req : PipelineRequest) : M Proxy unit :=
  p <- get ;;
  let server := if readOnly req then ReadServer (slotTable p) (slot req)
                else WriteServer (slotTable p) (slot req) in
  g <- poolGet server ;;
  match g with
  | inr err => handleErrorCmd ("ERR " +:+ err)
  | inl backendServer =>
      r <- inWorld (Backend.Request backendServer req) ;;
      let '(backendServer, res) := r in
      match res with
      | inl resp => toBackQ resp
      | inr err => handleErrorCmd ("ERR " +:+ err)
      end ;;
      poolPut backendServer
  end.

Section Reader.
Context `{CommandTable}.

(** [cmd.Value(i)] *)
Definition Value (cmd : Command) (i : nat) : string := nth i (Args cmd) EmptyString.

Definition handleGeneralCmd (cmd : Command) : M Proxy unit :=
  let key := Value cmd 1 in
  let slot := Key2Slot key in
  n <- getNextReqSeq ;;
  s <- getSess ;;
  let plReq := mkReq cmd (CmdReadOnly cmd) slot n 0 (Some (backQ s)) None in
  wgAdd 1 ;;
  Schedule plReq.

(** Modelled from the spec: [NewMultiCmd] ([MultiCmd] is declared outside
    the sources) creates a coordinator that expects [n] sub-responses. *)
Definition NewMultiCmd (cmd : Command) (n : nat) : M Proxy nat :=
  p <- get ;;
  let id := fresh (dom (coords (world p))) in
  inWorld (modify (fun w => set_coords (<[id := mkMultiCmd cmd n ∅]> (coords w)) w)) ;;
  ret id.

(** The loop of [handleMultiKeyCmd], from sub-command [i] on; [todo] counts
    the iterations left. *)
Fixpoint multiKeyLoop (cmd : Command) (mc : nat) (n : Z) (numKeys i todo : nat)
  : M Proxy unit :=
  match todo with
  | O => ret tt
  | S todo' =>
      match SubCmd cmd i numKeys with
      | inr err => panic err
      | inl subCmd =>
          let key := Value subCmd 1 in
          let slot := Key2Slot key in
          s <- getSess ;;
          let plReq := mkReq subCmd (CmdReadOnly cmd) slot n i (Some (backQ s)) (Some mc) in
          wgAdd 1 ;;
          Schedule plReq ;;
          multiKeyLoop cmd mc n numKeys (S i) todo'
      end
  end.

Definition handleMultiKeyCmd (cmd : Command) (numKeys : nat) : M Proxy unit :=
  mc <- NewMultiCmd cmd numKeys ;;
  n <- getNextReqSeq ;;
  multiKeyLoop cmd mc n numKeys 0 numKeys.

(** The loop of [handleReadAll] over the slots still to visit. *)
Fixpoint readAllLoop (cmd : Command) (mc : nat) (n : Z) (total i : nat)
    (slots : list Z) : M Proxy unit :=
  match slots with
  | [] => ret tt
  | slot :: rest =>
      match SubCmd cmd i total with
      | inr err => panic err
      | inl subCmd =>
          s <- getSess ;;
          let plReq := mkReq subCmd true slot n i (Some (backQ s)) (Some mc) in
          wgAdd 1 ;;
          Schedule plReq ;;
          readAllLoop cmd mc n total (S i) rest
      end
  end.

Definition handleReadAll (cmd : Command) : M Proxy unit :=
  n <- getNextReqSeq ;;
  p <- get ;;
  let slots := ServerSlots (slotTable p) in
  mc <- NewMultiCmd cmd (length slots) ;;
  readAllLoop cmd mc n (length slots) 0 slots.

Definition handleAuthCmd (cmd : Command) : M Proxy unit :=
  if (length (Args cmd) =? 2)%nat then
    s <- getSess ;;
    if Valkey.Auth (valkeyConn s) (nth 1 (Args cmd) EmptyString) then
      handleSimpleStringCmd OK ;;
      modSess (set_auth true)
    else handleErrorCmd AUTH_CMD_ERR
  else handleErrorCmd ARGUMENTS_ERR.

(** Modelled from the spec: [MultiCmdExec] is declared outside the sources.
    Section 4.2.2: the buffered commands are run one by one, each on a
    backend server of its slot, the replies are collected, and one RESP
    array with all of them is the result; the first error ends the run. *)
Definition execOne (cmd : Command) : M Proxy (string + string) :=
  p <- get ;;
  let slot := Key2Slot (Value cmd 1) in
  let server := if CmdReadOnly cmd then ReadServer (slotTable p) slot
                else WriteServer (slotTable p) slot in
  g <- poolGet server ;;
  match g with
  | inr err => ret (inr err)
  | inl b =>
      r <- match Backend.conn b with
           | None => ret (inr "init task runner connection error")
           | Some c =>
               werr <- inWorld (connWrite c (Format cmd)) ;;
               match werr with
               | Some e => ret (inr e)
               | None => inWorld (connRead c)
               end
           end ;;
      poolPut b ;;
      ret r
  end.

Fixpoint execAll (cmds : list Command) (replies : list string)
  : M Proxy (list string + string) :=
  match cmds with
  | [] => ret (inl replies)
  | cmd :: rest =>
      r <- execOne cmd ;;
      match r with
      | inr e => ret (inr e)
      | inl reply => execAll rest (replies ++ [reply])
      end
  end.

Definition Exec : M Proxy (string + string) :=
  s <- getSess ;;
  r <- execAll (default [] (multiCmd s)) [] ;;
  match r with
  | inr e => ret (inr e)
  | inl replies =>
      ret (inl ("*" +:+ pretty (length replies) +:+ crlf
                    +:+ String.concat EmptyString replies))
  end.

Definition handleMultiCmd (cmd : Command) : M Proxy unit :=
  s <- getSess ;;
  if String.eqb (Name cmd) "MULTI" then
    match multiCmd s with
    | Some _ => handleErrorCmd "ERR MULTI calls can not be nested"
    | None =>
        modSess (set_multiCmd (Some [])) ;;
        handleSimpleStringCmd OK
    end
  else if String.eqb (Name cmd) "EXEC" then
    match multiCmd s with
    | None => handleErrorCmd "ERR EXEC without MULTI"
    | Some _ =>
        if multiCmdErr s then
          modSess (set_multiCmdErr false) ;;
          handleErrorCmd "EXECABORT Transaction discarded"
        else
          r <- Exec ;;
          match r with
          | inr err => handleErrorCmd ("ERR EXEC error " +:+ err)
          | inl data =>
              wgAdd 1 ;;
              n <- getNextReqSeq ;;
              toBackQ (mkRsp (localReq n) (Some data) None)
          end
    end ;;
    modSess (set_multiCmd None)
  else
    let flag := CmdFlag cmd in
    if (flag =? CMD_FLAG_GENERAL) || (flag =? CMD_FLAG_READ) then
      match multiCmd s with
      | None => panic "nil pointer dereference"
      | Some buffered => modSess (set_multiCmd (Some (buffered ++ [cmd])))
      end ;;
      handleSimpleStringCmd "QUEUED"
    else
      modSess (set_multiCmdErr true) ;;
      handleErrorCmd UNKNOWN_CMD_ERR.

Definition checkAuth (s : Session) : bool :=
  auth s || Valkey.Auth (valkeyConn s) EmptyString.

Definition handle (cmd : Command) : M Proxy unit :=
  s <- getSess ;;
  if CmdAuthRequired cmd && negb (checkAuth s) then handleErrorCmd NOAUTH_ERR
  else if String.eqb (Name cmd) "MULTI" || bool_decide (multiCmd s <> None)
          || String.eqb (Name cmd) "EXEC" then handleMultiCmd cmd
  else if String.eqb (Name cmd) "AUTH" then handleAuthCmd cmd
  else if String.eqb (Name cmd) "SELECT" then handleSimpleStringCmd OK
  else if String.eqb (Name cmd) "PING" then handleSimpleStringCmd "PONG"
  else if CmdUnknown cmd then handleErrorCmd UNKNOWN_CMD_ERR
  else if CmdReadAll cmd then handleReadAll cmd
  else
    let '(yes, numKeys) := IsMultiCmd cmd in
    if yes && (1 <? numKeys)%nat then handleMultiKeyCmd cmd numKeys
    else handleGeneralCmd cmd.

End Reader.

(** *** The writer side *)

Definition set_rsp (x : option string) (r : PipelineResponse) : PipelineResponse :=
  mkRsp (ctx r) x (err r).
Definition set_err (x : option string) (r : PipelineResponse) : PipelineResponse :=
  mkRsp (ctx r) (rsp r) x.

(** [s.Write(buf)] on the client connection, while handling response [n]. *)
Definition clientWrite (n : Z) (buf : string) : M World (option string) :=
  emit (EvClientWrite n buf) ;;
  r <- io ;;
  match r with
  | IOerr e => ret (Some e)
  | IOok _ => ret None
  end.

Definition Close : M Proxy unit :=
  s <- getSess ;;
  if closed s then ret tt
  else modSess (set_closed true) ;; inWorld (emit EvClientClose).

Definition writeResp (plRsp : PipelineResponse) : M Proxy (option string) :=
  match parentCmd (ctx plRsp) with
  | Some parent =>
      p <- get ;;
      match coords (world p) !! parent with
      | None => panic "nil pointer dereference"
      | Some mc =>
          let mc := OnSubCmdFinished mc plRsp in
          inWorld (modify (fun w => set_coords (<[parent := mc]> (coords w)) w)) ;;
          if negb (Finished mc) then ret None
          else
            modSess (fun s => set_rspSeq (int64 (rspSeq s + 1)) s) ;;
            inWorld (clientWrite (seq (ctx plRsp)) (CoalesceRsp mc))
      end
  | None =>
      match rsp plRsp with
      | None => panic "nil pointer dereference"
      | Some raw => inWorld (clientWrite (seq (ctx plRsp)) raw)
      end
  end.

(** The exchange of [redirect] on the connection it has opened. *)
Definition redirectOn (conn : Conn) (plRsp : PipelineResponse) (ask : bool)
  : M World PipelineResponse :=
  a <- (if ask then connWrite conn ASK_CMD_BYTES else ret None) ;;
  match a with
  | Some e => ret (set_err (Some e) plRsp)
  | None =>
      w <- connWrite conn (Format (cmd (ctx plRsp))) ;;
      match w with
      | Some e => ret (set_err (Some e) plRsp)
      | None =>
          d <- (if ask then connRead conn else ret (inl EmptyString)) ;;
          match d with
          | inr e => ret (set_err (Some e) plRsp)
          | inl _ =>
              o <- connRead conn ;;
              match o with
              | inr e => ret (set_err (Some e) plRsp)
              | inl obj => ret (set_rsp (Some obj) plRsp)
              end
          end
      end
  end.

(** [redirect]: the response as the call leaves it. *)
Definition redirect (server : string) (plRsp : PipelineResponse) (ask : bool)
  : M Proxy PipelineResponse :=
  let plRsp := set_err None plRsp in
  s <- getSess ;;
  c <- inWorld (Valkey.Conn (valkeyConn s) server) ;;
  match c with
  | inr e => ret (set_err (Some e) plRsp)
  | inl conn =>
      r <- inWorld (redirectOn conn plRsp ask) ;;
      inWorld (connClose conn) ;;
      ret r
  end.

(** The first half of [handleResp]: the error object, or the redirection. *)
Definition resolve (plRsp : PipelineResponse) : M Proxy PipelineResponse :=
  match err plRsp with
  | Some e =>
      inWorld Dispatcher.TriggerReloadSlots ;;
      ret (set_rsp (Some (NewObjectFromData (mkData T_Error e))) plRsp)
  | None =>
      match rsp plRsp with
      | None => panic "nil pointer dereference"
      | Some EmptyString => panic "index out of range"
      | Some (String t _ as raw) =>
          if Ascii.eqb t T_Error then
            if HasPrefix raw MOVED then
              r <- liftRes (ParseRedirectInfo raw) ;;
              inWorld Dispatcher.TriggerReloadSlots ;;
              redirect (snd r) plRsp false
            else if HasPrefix raw ASK then
              r <- liftRes (ParseRedirectInfo raw) ;;
              redirect (snd r) plRsp true
            else ret plRsp
          else ret plRsp
      end
  end.

Definition handleResp (plRsp : PipelineResponse) : M Proxy (option string) :=
  s <- getSess ;;
  if negb (seq (ctx plRsp) =? rspSeq s) then panic "impossible"
  else
    wgAdd (-1) ;;
    (if parentCmd (ctx plRsp) is None
     then modSess (fun s => set_rspSeq (int64 (rspSeq s + 1)) s)
     else ret tt) ;;
    plRsp <- resolve plRsp ;;
    match err plRsp with
    | Some e => ret (Some e)
    | None =>
        s <- getSess ;;
        if negb (closed s) then writeResp plRsp else ret None
    end.

(** Modelled from the spec: [PipelineResponseHeap] is declared outside the
    sources; it is a min-heap keyed by [ctx.seq].  The heap is kept as a
    list in ascending order of [seq]: [Top] is its head, [heap.Pop] removes
    the head, [heap.Push] inserts. *)
Fixpoint heapPush (r : PipelineResponse) (h : list PipelineResponse)
  : list PipelineResponse :=
  match h with
  | [] => [r]
  | x :: h' =>
      if seq (ctx r) <? seq (ctx x) then r :: h else x :: heapPush r h'
  end.

(** The loop at the end of [handleRespPipeline]; [h] is the heap as it is
    on entry (handling a response does not touch the heap). *)
Fixpoint drainHeap (h : list PipelineResponse) : M Proxy (option string) :=
  match h with
  | [] => ret None
  | top :: rest =>
      s <- getSess ;;
      if negb (seq (ctx top) =? rspSeq s) then ret None
      else
        modSess (set_rspHeap rest) ;;
        e <- handleResp top ;;
        match e with
        | Some e => ret (Some e)
        | None => drainHeap rest
        end
  end.

Definition handleRespPipeline (plRsp : PipelineResponse) : M Proxy (option string) :=
  s <- getSess ;;
  if negb (seq (ctx plRsp) =? rspSeq s) then
    modSess (set_rspHeap (heapPush plRsp (rspHeap s))) ;;
    ret None
  else
    e <- handleResp plRsp ;;
    match e with
    | Some e => ret (Some e)
    | None => s <- getSess ;; drainHeap (rspHeap s)
    end.

(** The body of [WritingLoop] for the responses received from [backQ], in
    the order of their arrival. *)
Fixpoint consume (arrivals : list PipelineResponse) : M Proxy unit :=
  match arrivals with
  | [] => ret tt
  | r :: rest =>
      e <- handleRespPipeline r ;;
      (if e is Some _ then Close else ret tt) ;;
      consume rest
  end.

(** [WritingLoop] when [backQ] delivers [arrivals] and is then closed. *)
Definition WritingLoop (arrivals : list PipelineResponse) : M Proxy unit :=
  consume arrivals ;;
  Close.

(** The responses waiting in the session's [backQ], taken off the channel. *)
Definition takeBackQ : M Proxy (list PipelineResponse) :=
  p <- get ;;
  let q := backQ (sess p) in
  inWorld (modify (fun w => set_chans (<[q := []]> (chans w)) w)) ;;
  ret (default [] (chans (world p) !! q)).

End Session.


(** * Vocabulary of the properties *)

Module Vocabulary.
Import GoStrings Redirect Resp Pipeline IO Dispatcher.

(** [m] relates every state it is run from to the state it leaves, whether
    it returns or aborts. *)
Definition steps {S A : Type} (R : S -> S -> Prop) (m : M S A) : Prop :=
  forall s, R s (m s).2.

(** [m] returns from every state. *)
Definition returns {S A : Type} (m : M S A) : Prop :=
  forall s, exists a, (m s).1 = Ok a.

(** Bytes that are neither white space nor part of a multi-byte rune. *)
Definition plainByte (c : ascii) : bool :=
  negb (isAsciiSpace c) && (byte_of c <? 128)%N.

Fixpoint plain (s : string) : bool :=
  match s with
  | EmptyString => true
  | String c s' => plainByte c && plain s'
  end.

(** In the words of the design: a node is alive when CLUSTER NODES has a
    line for its [ip:port] whose flags field does not contain [fail]. *)
Definition aliveIn (lines : list string) (node : string) : bool :=
  existsb (fun line =>
             match SplitN line " " 4 with
             | _ :: ipport :: flags :: _ =>
                 String.eqb ipport node && negb (Contains flags "fail")
             | _ => false
             end) lines.

(** [[si.write]] when no replica is eligible. *)
Definition orWrite (si : SlotInfo) (eligible : list string) : list string :=
  match eligible with
  | [] => [write si]
  | _ => eligible
  end.

Fixpoint noByte (sep : ascii) (s : string) : bool :=
  match s with
  | EmptyString => true
  | String c s' => negb (Ascii.eqb c sep) && noByte sep s'
  end.

(** *** Example data *)

Definition lf : string := String "010" EmptyString.

(** A CLUSTER NODES reply: the master, a failed replica, a replica in
    another network and a replica in the proxy's network. *)
Definition exampleNodes : string :=
  "305fa 10.4.17.164:7704 master - 0 1440042315188 2 connected 5461-10922" +:+ lf
  +:+ "aaa 10.4.17.165:7704 slave,fail 305fa 0 0 2 connected" +:+ lf
  +:+ "bbb 10.9.17.166:7704 slave 305fa 0 0 2 connected" +:+ lf
  +:+ "ccc 10.4.17.167:7704 slave 305fa 0 0 2 connected" +:+ lf.

Definition exampleSlotInfo : SlotInfo :=
  mkSlotInfo 5461 10922 "10.4.17.164:7704"
             ["10.4.17.165:7704"; "10.9.17.166:7704"; "10.4.17.167:7704"].

(** The reload channel after one more [TriggerReloadSlots]. *)
Definition afterTrigger (c : Chan) : Chan := default c (trySend c).

Definition exampleValkeyConn : Valkey.ValkeyConn := Valkey.mkValkeyConn 0 0 0 EmptyString false.

(** A world with nothing scripted and the reload channel as [NewDispatcher]
    makes it. *)
Definition exampleWorld : World := mkWorld [] [] 0 (make_chan 1) ∅ ∅.

(** A dispatcher with a reload interval of one second. *)
Definition exampleDispatcher : Dispatcher :=
  mkDispatcher ["10.4.17.164:7704"] 1000 exampleValkeyConn READ_PREFER_SLAVE.

(** The world after [r] has been sent on channel [q]. *)
Definition enqueue (q : nat) (r : PipelineResponse) (w : World) : World :=
  set_chans (<[q := default [] (chans w !! q) ++ [r]]> (chans w)) w.

(** The proxy after the session has answered a command locally with the
    reply [raw]: the reply takes the next request sequence number, counts
    as one request in flight and waits in [backQ]. *)
Definition replied (raw : string) (p : Session.Proxy) : Session.Proxy :=
  let s := Session.sess p in
  Session.mkProxy
    (enqueue (Session.backQ s)
             (mkRsp (localReq (Session.reqSeq s)) (Some raw) None) (Session.world p))
    (Session.set_reqWg (Session.reqWg s + 1)
       (Session.set_reqSeq (Session.int64 (Session.reqSeq s + 1)) s))
    (Session.slotTable p) (Session.backendServerPool p).

Definition errorReply (msg : string) : string := "-" +:+ msg +:+ crlf.
Definition simpleReply (msg : string) : string := "+" +:+ msg +:+ crlf.

(** A small command table: GET reads, SET and DEL write, MGET has several
    keys, KEYS visits every shard, BOGUS is unknown; every command but AUTH
    needs authentication. *)
#[export] Instance exampleTable : Session.CommandTable := {|
  Session.CmdAuthRequired c := negb (String.eqb (Name c) "AUTH");
  Session.CmdUnknown c := String.eqb (Name c) "BOGUS";
  Session.CmdReadAll c := String.eqb (Name c) "KEYS";
  Session.IsMultiCmd c := (String.eqb (Name c) "MGET", (length (Args c) - 1)%nat);
  Session.CmdReadOnly c := String.eqb (Name c) "GET";
  Session.CmdFlag c :=
    if String.eqb (Name c) "GET" then 0
    else if String.eqb (Name c) "SET" || String.eqb (Name c) "DEL" then 2
    else 3;
  Session.CMD_FLAG_GENERAL := 2;
  Session.CMD_FLAG_READ := 0;
  Session.Key2Slot k := Z.of_nat (String.length k);
  Session.SubCmd c i n := inl (mkCommand ["GET"; nth (S i) (Args c) EmptyString])
|}.

Definition exampleSlotTable : Session.SlotTable :=
  Session.mkSlotTable (fun _ => "10.4.17.167:7704") (fun _ => "10.4.17.164:7704") [0; 5461].

(** A fresh session (nothing requested, nothing answered) whose [backQ] is
    channel 7. *)
Definition exampleSession (vc : Valkey.ValkeyConn) : Session.Session :=
  Session.mkSession false 0 0 7 false 0 [] vc None false.

Definition exampleProxy (vc : Valkey.ValkeyConn) (script : list IOResult) : Session.Proxy :=
  Session.mkProxy (set_script script exampleWorld) (exampleSession vc) exampleSlotTable ∅.

(** The first test of [handle] lets the command through. *)
Definition passesAuthGate `{Session.CommandTable} (s : Session.Session) (cmd : Command) : bool :=
  negb (Session.CmdAuthRequired cmd && negb (Session.checkAuth s)).

(** The class of the command lets it be queued inside MULTI. *)
Definition queueable `{Session.CommandTable} (cmd : Command) : bool :=
  (Session.CmdFlag cmd =? Session.CMD_FLAG_GENERAL)
  || (Session.CmdFlag cmd =? Session.CMD_FLAG_READ).

(** The reader handling the commands of a list one after the other, as
    [ReadingLoop] does with the commands it parses. *)
Fixpoint handleEach `{Session.CommandTable} (cmds : list Command) : M Session.Proxy unit :=
  match cmds with
  | [] => ret tt
  | cmd :: rest => Session.handle cmd ;; handleEach rest
  end.

(** The session with the transaction marked bad, and with a command added
    to the buffer. *)
Definition markedBad (p : Session.Proxy) : Session.Proxy :=
  Session.set_sess (Session.set_multiCmdErr true (Session.sess p)) p.

Definition queued (cmd : Command) (p : Session.Proxy) : Session.Proxy :=
  Session.set_sess
    (Session.set_multiCmd
       (Some (default [] (Session.multiCmd (Session.sess p)) ++ [cmd]))
       (Session.sess p)) p.

(** The sentence of the design about the commands received inside MULTI,
    read for every command but the closing EXEC. *)
Definition every_command_in_MULTI_queued_or_refused `{Session.CommandTable} : Prop :=
  forall (p : Session.Proxy) (cmd : Command),
    is_Some (Session.multiCmd (Session.sess p)) ->
    Name cmd <> "EXEC" ->
    passesAuthGate (Session.sess p) cmd = true ->
    (queueable cmd = false ->
       Session.handle cmd p
       = (Ok tt, replied (errorReply Session.UNKNOWN_CMD_ERR) (markedBad p)))
    /\ (queueable cmd = true ->
          Session.handle cmd p = (Ok tt, replied (simpleReply "QUEUED") (queued cmd p))).

(** An authenticated session inside an empty transaction. *)
Definition exampleOpenSession : Session.Session :=
  Session.mkSession true 1 0 7 false 1 [] exampleValkeyConn (Some []) false.

Definition exampleOpenProxy : Session.Proxy :=
  Session.mkProxy exampleWorld exampleOpenSession exampleSlotTable ∅.

(** The proxy after EXEC has discarded a transaction marked bad. *)
Definition aborted (p : Session.Proxy) : Session.Proxy :=
  let p' := replied (errorReply "EXECABORT Transaction discarded")
                    (Session.set_sess (Session.set_multiCmdErr false (Session.sess p)) p) in
  Session.set_sess (Session.set_multiCmd None (Session.sess p')) p'.

(** From [p] to [p'] nothing was exchanged with a backend server and the
    session's standing is as it was: same events, same script, same pool,
    same authentication. *)
Definition nothingForwarded (p p' : Session.Proxy) : Prop :=
  trace (Session.world p') = trace (Session.world p)
  /\ script (Session.world p') = script (Session.world p)
  /\ Session.backendServerPool p' = Session.backendServerPool p
  /\ Session.auth (Session.sess p') = Session.auth (Session.sess p)
  /\ Session.valkeyConn (Session.sess p') = Session.valkeyConn (Session.sess p).

(** The proxy with the session marked authenticated. *)
Definition authed (p : Session.Proxy) : Session.Proxy :=
  Session.set_sess (Session.set_auth true (Session.sess p)) p.

(** A proxy that asks its clients for the password [secret]. *)
Definition exampleSecretProxy : Session.Proxy :=
  exampleProxy (Valkey.mkValkeyConn 0 0 0 "secret" false) [].

(** [m] relates every state to the state it leaves, and every value it
    returns satisfies [V]. *)
Definition ensures {S A : Type} (m : M S A) (R : S -> S -> Prop) (V : A -> Prop) : Prop :=
  forall s, R s (m s).2 /\ forall a, (m s).1 = Ok a -> V a.

(** The sequence numbers of the responses written to the client, in the
    order of the writes. *)
Fixpoint clientWrites (tr : list Event) : list Z :=
  match tr with
  | [] => []
  | EvClientWrite n _ :: rest => n :: clientWrites rest
  | _ :: rest => clientWrites rest
  end.

(** [l] is strictly increasing and starts at [lo] or above. *)
Fixpoint increasingFrom (lo : Z) (l : list Z) : Prop :=
  match l with
  | [] => True
  | x :: rest => lo <= x /\ increasingFrom (x + 1) rest
  end.

(** From [w] to [w'] events were added, none of them a write to the
    client. *)
Definition quietW (w w' : World) : Prop :=
  exists new, trace w' = trace w ++ new /\ clientWrites new = [].

(** The same for the proxy, with the session left as it was. *)
Definition quiet (p p' : Session.Proxy) : Prop :=
  Session.sess p' = Session.sess p /\ quietW (Session.world p) (Session.world p').

(** What handling responses does between [p] and [p']: the writes to the
    client are in strictly increasing order of [seq], from [rspSeq] of [p]
    on and below [rspSeq] of [p']; [rspSeq] does not decrease; and
    [rspSeq] plus the size of the heap has grown by [k] at most. *)
Definition writesInOrder (k : Z) (p p' : Session.Proxy) : Prop :=
  let s := Session.sess p in
  let s' := Session.sess p' in
  exists new,
    trace (Session.world p') = trace (Session.world p) ++ new
    /\ increasingFrom (Session.rspSeq s) (clientWrites new)
    /\ Forall (fun n => n < Session.rspSeq s') (clientWrites new)
    /\ Session.rspSeq s <= Session.rspSeq s'
    /\ Session.rspSeq s' + Z.of_nat (length (Session.rspHeap s'))
       <= Session.rspSeq s + Z.of_nat (length (Session.rspHeap s)) + k.

(** The heap is in ascending order of [seq]. *)
Definition heapOrdered (h : list PipelineResponse) : Prop :=
  Sorted (fun a b => seq (ctx a) <= seq (ctx b)) h.

(** What handling one response, whose [seq] is [rspSeq] of [p], does: the
    heap and the closed mark stay; at most one write to the client is
    made, for that [seq], and then [rspSeq] has moved on by one; without a
    write [rspSeq] stays or moves on by one; a closed session is not
    written to. *)
Definition handledOne (p p' : Session.Proxy) : Prop :=
  let s := Session.sess p in
  let s' := Session.sess p' in
  Session.rspHeap s' = Session.rspHeap s
  /\ Session.closed s' = Session.closed s
  /\ exists new,
       trace (Session.world p') = trace (Session.world p) ++ new
       /\ ((clientWrites new = []
            /\ (Session.rspSeq s' = Session.rspSeq s
                \/ Session.rspSeq s' = Session.int64 (Session.rspSeq s + 1)))
           \/ (clientWrites new = [Session.rspSeq s]
               /\ Session.closed s = false
               /\ Session.rspSeq s' = Session.int64 (Session.rspSeq s + 1))).

(** A response of the session's own making for sequence number [n], and two
    responses that arrive in the reverse of the order of their requests. *)
Definition exampleReply (n : Z) (raw : string) : PipelineResponse :=
  mkRsp (localReq n) (Some raw) None.

Definition exampleArrivals : list PipelineResponse :=
  [exampleReply 1 ("$1" +:+ crlf +:+ "B" +:+ crlf);
   exampleReply 0 ("$1" +:+ crlf +:+ "A" +:+ crlf)].

(** The response a backend server leaves for request 0 when its
    connection fails. *)
Definition exampleFailure : PipelineResponse :=
  mkRsp (mkReq (mkCommand ["GET"; "k"]) true 1 0 0 (Some 7%nat) None) None (Some "EOF").

(** From [p] to [p'] nothing was written to the client and the session is
    closed at the end. *)
Definition keptSilent (p p' : Session.Proxy) : Prop :=
  Session.closed (Session.sess p') = true
  /\ exists new,
       trace (Session.world p') = trace (Session.world p) ++ new
       /\ clientWrites new = [].

(** A command table that asks no authentication of AUTH and MULTI, and is
    [exampleTable] for the rest. *)
Definition lenientTable : Session.CommandTable := {|
  Session.CmdAuthRequired c :=
    negb (String.eqb (Name c) "AUTH" || String.eqb (Name c) "MULTI");
  Session.CmdUnknown := @Session.CmdUnknown exampleTable;
  Session.CmdReadAll := @Session.CmdReadAll exampleTable;
  Session.IsMultiCmd := @Session.IsMultiCmd exampleTable;
  Session.CmdReadOnly := @Session.CmdReadOnly exampleTable;
  Session.CmdFlag := @Session.CmdFlag exampleTable;
  Session.CMD_FLAG_GENERAL := @Session.CMD_FLAG_GENERAL exampleTable;
  Session.CMD_FLAG_READ := @Session.CMD_FLAG_READ exampleTable;
  Session.Key2Slot := @Session.Key2Slot exampleTable;
  Session.SubCmd := @Session.SubCmd exampleTable
|}.

(** The proxy after MULTI has opened a transaction. *)
Definition opened (p : Session.Proxy) : Session.Proxy :=
  replied (simpleReply Session.OK)
          (Session.set_sess (Session.set_multiCmd (Some []) (Session.sess p)) p).

(** The session of [exampleSecretProxy] inside a transaction: after
    [AUTH secret] and MULTI, and after MULTI alone (which [lenientTable]
    lets through). *)
Definition exampleSecretOpenProxy : Session.Proxy :=
  opened (authed (replied (simpleReply Session.OK) exampleSecretProxy)).

Definition exampleHeldOpenProxy : Session.Proxy := opened exampleSecretProxy.

(** The sentence of the design about AUTH, read for every moment of a
    session of the proxy whose password is [secret]: whatever commands the
    session has handled, [AUTH pw] is answered [+OK] and marks the session
    authenticated when [pw] is the password, and is answered
    [-ERR invalid password] otherwise. *)
Definition AUTH_always_checks_password `{Session.CommandTable} : Prop :=
  forall (cmds : list Command) (p : Session.Proxy) (pw : string),
    handleEach cmds exampleSecretProxy = (Ok tt, p) ->
    Session.handle (mkCommand ["AUTH"; pw]) p
    = (Ok tt, if String.eqb pw "secret"
              then authed (replied (simpleReply Session.OK) p)
              else replied (errorReply Session.AUTH_CMD_ERR) p).

End Vocabulary.

(** * Properties *)

Import GoStrings Redirect Resp Pipeline IO Vocabulary.

(** ** Reasoning about state-passing computations *)

Lemma steps_ret {S A : Type} (R : S -> S -> Prop) (a : A) :
  Reflexive R -> steps R (ret a).
Proof. intros HR s. apply HR. Qed.

Lemma steps_bind {S A B : Type} (R : S -> S -> Prop) (m : M S A) (k : A -> M S B) :
  Transitive R -> steps R m -> (forall a, steps R (k a)) -> steps R (bind m k).
Proof.
  intros HT Hm Hk s. unfold bind. specialize (Hm s).
  destruct (m s) as [[a| | |] s'] eqn:E; simpl in *; trivial.
  eapply HT; [exact Hm | apply Hk].
Qed.

Lemma steps_weaken {S A : Type} (R R' : S -> S -> Prop) (m : M S A) :
  (forall s s', R s s' -> R' s s') -> steps R m -> steps R' m.
Proof. intros HRR Hm s. apply HRR, Hm. Qed.

Lemma returns_ret {S A : Type} (a : A) : returns (@ret S A a).
Proof. intros s. by exists a. Qed.

Lemma returns_bind {S A B : Type} (m : M S A) (k : A -> M S B) :
  returns m -> (forall a, returns (k a)) -> returns (bind m k).
Proof.
  intros Hm Hk s. unfold bind. destruct (Hm s) as [a Ha].
  destruct (m s) as [r s']; simpl in Ha; subst r. apply Hk.
Qed.

Lemma returns_modify {S : Type} (f : S -> S) : returns (modify f).
Proof. intros s. by exists tt. Qed.

Lemma returns_get {S : Type} : returns (@get S).
Proof. intros s. by exists s. Qed.

Lemma returns_put {S : Type} (x : S) : returns (put x).
Proof. intros s. by exists tt. Qed.

Lemma returns_zoom {S T A : Type} (proj : S -> T) (upd : T -> S -> S) (m : M T A) :
  returns m -> returns (zoom proj upd m).
Proof.
  intros Hm s. unfold zoom. destruct (Hm (proj s)) as [a Ha].
  destruct (m (proj s)) as [r t]; simpl in *. by exists a.
Qed.

(** What a computation that returns leaves behind, as an equation. *)
Lemma returns_run {S A : Type} (m : M S A) (s : S) :
  returns m -> exists a, m s = (Ok a, (m s).2).
Proof. intros Hm. destruct (Hm s) as [a Ha]. exists a. by destruct (m s); simpl in *; subst. Qed.

Lemma bind_run {S A B : Type} (m : M S A) (k : A -> M S B) (s s' : S) (a : A) :
  m s = (Ok a, s') -> bind m k s = k a s'.
Proof. intros E. unfold bind. by rewrite E. Qed.

(** ** [ParseRedirectInfo] *)

Lemma spaceWidth_plain c s : plainByte c = true -> spaceWidth (String c s) = 0%nat.
Proof.
  unfold plainByte. intros [Hs Hb]%andb_prop. simpl.
  apply negb_true_iff in Hs. rewrite Hs.
  apply N.ltb_lt in Hb.
  destruct (byte_of c) as [|p] eqn:E; [done|].
  repeat (destruct p as [p|p|]; try done; try lia).
Qed.

Lemma append_cons (c : ascii) (s t : string) : String c s +:+ t = String c (s +:+ t).
Proof. reflexivity. Qed.

Lemma append_nil_l (t : string) : EmptyString +:+ t = t.
Proof. reflexivity. Qed.

Lemma append_assoc_char (cur : string) (c : ascii) (t : string) :
  (cur +:+ String c EmptyString) +:+ t = cur +:+ String c t.
Proof.
  induction cur as [|x cur IH]; [done|].
  rewrite !append_cons. by rewrite IH.
Qed.

Lemma append_assoc (s t u : string) : (s +:+ t) +:+ u = s +:+ t +:+ u.
Proof. induction s as [|c s IH]; [done|]. rewrite !append_cons. by rewrite IH. Qed.

Lemma append_empty_r (s : string) : s +:+ EmptyString = s.
Proof. induction s as [|x s IH]; [done|]. rewrite append_cons. by rewrite IH. Qed.

Lemma FieldsFrom_plain (t cur rest : string) :
  plain t = true ->
  FieldsFrom 0 cur (t +:+ rest) = FieldsFrom 0 (cur +:+ t) rest.
Proof.
  revert cur. induction t as [|c t IH]; intros cur Ht.
  - rewrite append_nil_l. by rewrite append_empty_r.
  - simpl in Ht. apply andb_prop in Ht as [Hc Ht].
    rewrite append_cons.
    cbn [FieldsFrom]. rewrite (spaceWidth_plain c (t +:+ rest) Hc).
    rewrite IH by done. by rewrite append_assoc_char.
Qed.

Lemma FieldsFrom_space (c : ascii) (cur rest : string) :
  isAsciiSpace c = true ->
  FieldsFrom 0 cur (String c rest) = flush cur ++ FieldsFrom 0 EmptyString rest.
Proof. intros Hc. cbn [FieldsFrom spaceWidth]. by rewrite Hc. Qed.

Lemma flush_nonempty (s : string) : s <> EmptyString -> flush s = [s].
Proof. by destruct s. Qed.

(** A redirect line made of three plain words yields exactly these words. *)
Lemma Fields_redirect_line (a b c : string) :
  plain a = true -> plain b = true -> plain c = true ->
  a <> EmptyString -> b <> EmptyString -> c <> EmptyString ->
  Fields (a +:+ " " +:+ b +:+ " " +:+ c +:+ crlf) = [a; b; c].
Proof.
  intros Ha Hb Hc Na Nb Nc. unfold Fields, crlf.
  rewrite FieldsFrom_plain, append_nil_l by done.
  rewrite (append_cons " " EmptyString), append_nil_l.
  rewrite FieldsFrom_space, flush_nonempty by done.
  rewrite FieldsFrom_plain, append_nil_l by done.
  rewrite (append_cons " " EmptyString), append_nil_l.
  rewrite FieldsFrom_space, flush_nonempty by done.
  rewrite FieldsFrom_plain, append_nil_l by done.
  rewrite FieldsFrom_space, flush_nonempty by done.
  by rewrite FieldsFrom_space.
Qed.

Lemma digitsFrom_nonneg (s : string) (acc n : Z) :
  0 <= acc -> digitsFrom acc s = Some n -> acc <= n.
Proof.
  revert acc. induction s as [|c s IH]; intros acc Hacc; simpl.
  - intros [= <-]. lia.
  - destruct (isDigit c) eqn:Hd; [|done]. intros Hn.
    unfold isDigit in Hd. apply andb_prop in Hd as [H1 H2].
    apply N.leb_le in H1, H2.
    assert (0 <= digitVal c <= 9) by (unfold digitVal; lia).
    apply IH in Hn; lia.
Qed.

(** [Atoi] answers only numbers an [int] can hold. *)
Lemma Atoi_range (s : string) (n : Z) : Atoi s = Some n -> minInt <= n <= maxInt.
Proof.
  unfold Atoi.
  destruct (match s with
            | String "-"%char r => (true, r)
            | String "+"%char r => (false, r)
            | _ => (false, s)
            end) as [neg digits].
  destruct digits as [|d ds]; [done|].
  destruct (digitsFrom 0 (String d ds)) as [v|]; [|done].
  destruct (_ && _) eqn:E; [|done]. intros [= <-].
  apply andb_prop in E as [H1 H2]. lia.
Qed.

(** C9. A redirect payload that does not split into exactly three
    white-space separated fields, or whose second field [strconv.Atoi]
    rejects, makes [ParseRedirectInfo] end the process ([glog.Fatalf]);
    there is no error result.  A payload of three fields whose second one
    is an integer yields that integer and the third field. *)
Theorem ParseRedirectInfo_fatal_or_parsed (msg : string) :
  (length (Fields msg) <> 3%nat \/ Atoi (nth 1 (Fields msg) EmptyString) = None ->
   ParseRedirectInfo msg = Fatal ("invalid redirect message: " +:+ msg))
  /\ (forall a b c slot,
        Fields msg = [a; b; c] -> Atoi b = Some slot ->
        ParseRedirectInfo msg = Ok (slot, c)).
Proof.
  split.
  - intros [Hlen | Hint]; unfold ParseRedirectInfo.
    + destruct (Nat.eqb_spec (length (Fields msg)) 3); [done | done].
    + destruct (negb _); [done|]. by rewrite Hint.
  - intros a b c slot Hf Hi. unfold ParseRedirectInfo. rewrite Hf. simpl.
    by rewrite Hi.
Qed.

Lemma ParseRedirectInfo_fatal_or_parsed_witness :
  ParseRedirectInfo "-MOVED 12x4 10.0.0.2:6379" =
    Fatal "invalid redirect message: -MOVED 12x4 10.0.0.2:6379"
  /\ ParseRedirectInfo ("-MOVED 1234 10.0.0.2:6379" +:+ crlf) = Ok (1234, "10.0.0.2:6379").
Proof.
  split.
  - apply (proj1 (ParseRedirectInfo_fatal_or_parsed "-MOVED 12x4 10.0.0.2:6379")).
    right. vm_compute. reflexivity.
  - apply (proj2 (ParseRedirectInfo_fatal_or_parsed ("-MOVED 1234 10.0.0.2:6379" +:+ crlf))
             "-MOVED" "1234" "10.0.0.2:6379" 1234); vm_compute; reflexivity.
Defined.

(** ** The read-preference rewrite *)

Section ReadPreference.
Import Dispatcher.

Lemma isAlive_insert (m : gmap string bool) (k node : string) :
  isAlive (<[k := true]> m) node = String.eqb k node || isAlive m node.
Proof.
  unfold isAlive. destruct (String.eqb_spec k node) as [->|Hne].
  - by rewrite lookup_insert_eq.
  - by rewrite lookup_insert_ne.
Qed.

Lemma markAlive_alive (lines : list string) (m m' : gmap string bool) :
  markAlive lines m = Ok m' ->
  forall node, isAlive m' node = aliveIn lines node || isAlive m node.
Proof.
  revert m. induction lines as [|line rest IH]; intros m Hm node.
  - simpl in Hm. by injection Hm as <-.
  - cbn [markAlive] in Hm. cbn [aliveIn existsb].
    unfold CLUSTER_NODES_FIELD_SPLIT_NUM, CLUSTER_NODES_FIELD_NUM_FLAGS,
      CLUSTER_NODES_FIELD_NUM_IP_PORT in Hm.
    destruct (SplitN line " " 4) as [|e0 [|e1 [|e2 els]]]; try done.
    cbn [lookup list_lookup] in Hm.
    destruct (Contains e2 "fail"); cbn [negb] in Hm.
    + rewrite (IH _ Hm). fold (aliveIn rest node). by rewrite andb_false_r.
    + rewrite (IH _ Hm), isAlive_insert, andb_true_r. fold (aliveIn rest node).
      by destruct (aliveIn rest node), (String.eqb e1 node).
Qed.

Lemma filterRead_filter (rp : Z) (pre : string) (m : gmap string bool)
    (nodes acc : list string) :
  filterRead rp pre m nodes acc =
  acc ++ List.filter (fun node => isAlive m node
                        && (negb (rp =? READ_PREFER_SLAVE_IDC) || HasPrefix node pre))
                     nodes.
Proof.
  revert acc. induction nodes as [|node rest IH]; intros acc; simpl.
  - by rewrite app_nil_r.
  - destruct (isAlive m node); simpl; [|apply IH].
    destruct (rp =? READ_PREFER_SLAVE_IDC); simpl.
    + destruct (HasPrefix node pre); simpl; [|apply IH].
      rewrite IH. by rewrite <- app_assoc.
    + rewrite IH. by rewrite <- app_assoc.
Qed.

Lemma splitByte_piece (more : nat) (sep : ascii) (t cur rest : string) :
  noByte sep t = true ->
  splitByte (S more) sep cur (t +:+ String sep rest)
  = (cur +:+ t) :: splitByte more sep EmptyString rest.
Proof.
  revert cur. induction t as [|c t IH]; intros cur Ht.
  - rewrite append_nil_l, append_empty_r. cbn [splitByte].
    by rewrite Ascii.eqb_refl.
  - simpl in Ht. apply andb_prop in Ht as [Hc Ht].
    rewrite append_cons. cbn [splitByte].
    apply negb_true_iff in Hc. rewrite Hc.
    rewrite IH by done. by rewrite append_assoc_char.
Qed.

Lemma length_append (s t : string) :
  String.length (s +:+ t) = (String.length s + String.length t)%nat.
Proof. induction s as [|c s IH]; [done|]. rewrite append_cons. simpl. by rewrite IH. Qed.

(** For a dotted address the prefix the code builds is its first two
    segments, each followed by a dot. *)
Lemma localIPPrefixOf_dotted (a b rest : string) :
  noByte "." a = true -> noByte "." b = true ->
  localIPPrefixOf (a +:+ "." +:+ b +:+ "." +:+ rest) = a +:+ "." +:+ b +:+ ".".
Proof.
  intros Ha Hb. unfold localIPPrefixOf.
  assert (0 < String.length (a +:+ "." +:+ b +:+ "." +:+ rest))%nat as Hlen.
  { rewrite length_append. rewrite (append_cons "." EmptyString). simpl. lia. }
  apply Nat.ltb_lt in Hlen. rewrite Hlen.
  unfold SplitN.
  rewrite (append_cons "." EmptyString (b +:+ "." +:+ rest)), append_nil_l.
  rewrite splitByte_piece by done.
  rewrite (append_cons "." EmptyString rest), append_nil_l.
  rewrite splitByte_piece by done.
  rewrite !append_nil_l.
  destruct rest; cbn [splitByte firstTwo Join]; by rewrite !append_assoc.
Qed.

(** C6. After the read-preference rewrite of a reload that completes, each
    [SlotInfo] keeps its range and its write endpoint, and its read list is:
    [[write]] under PreferMaster; the alive replicas, or [[write]] when
    there is none, under PreferSlave; the alive replicas that begin with
    the local prefix, or [[write]], under PreferSlaveSameIdc (for a dotted
    local address the prefix is its first two segments).  So the read list
    is never empty and holds only alive endpoints or the write endpoint. *)
Theorem doReload_read_preference
    (readPrefer : Z) (localIP nodes : string) (slotInfos out : list SlotInfo) :
  reloadFilter readPrefer localIP nodes slotInfos = Ok out ->
  let alive := aliveIn (Split (TrimSpace nodes) "010") in
  let local node := HasPrefix node (localIPPrefixOf localIP) in
  length out = length slotInfos /\
  forall i si si',
    slotInfos !! i = Some si -> out !! i = Some si' ->
    start si' = start si /\ end_ si' = end_ si /\ write si' = write si /\
    (readPrefer = READ_PREFER_MASTER -> read si' = [write si]) /\
    (readPrefer = READ_PREFER_SLAVE ->
       read si' = orWrite si (List.filter alive (read si))) /\
    (readPrefer = READ_PREFER_SLAVE_IDC ->
       read si' = orWrite si (List.filter (fun n => alive n && local n) (read si))
       /\ forall a b rest,
            noByte "." a = true -> noByte "." b = true ->
            localIP = a +:+ "." +:+ b +:+ "." +:+ rest ->
            localIPPrefixOf localIP = a +:+ "." +:+ b +:+ ".") /\
    (readPrefer = READ_PREFER_MASTER \/ readPrefer = READ_PREFER_SLAVE
       \/ readPrefer = READ_PREFER_SLAVE_IDC ->
       read si' <> [] /\ forall e, In e (read si') -> alive e = true \/ e = write si).
Proof.
  intros Hrun alive local. unfold reloadFilter in Hrun.
  destruct (markAlive (Split (TrimSpace nodes) "010") ∅) as [m| | |] eqn:Hm; try done.
  injection Hrun as <-.
  assert (forall node, isAlive m node = alive node) as Halive.
  { intros node. rewrite (markAlive_alive _ _ _ Hm). unfold isAlive.
    rewrite lookup_empty. simpl. by rewrite orb_false_r. }
  split; [by rewrite length_fmap|].
  intros i si si' Hi Ho. rewrite list_lookup_fmap, Hi in Ho. injection Ho as <-.
  assert (forall f, (forall e, In e (List.filter f (read si)) -> alive e = true) ->
            orWrite si (List.filter f (read si)) <> [] /\
            forall e, In e (orWrite si (List.filter f (read si))) ->
                      alive e = true \/ e = write si) as Hclosure.
  { intros f Hf. destruct (List.filter f (read si)) as [|x l] eqn:E; simpl.
    - split; [done|]. intros e [<-|[]]. by right.
    - split; [done|]. intros e He. left. by apply Hf. }
  assert (forall rp, (length (filterRead rp (localIPPrefixOf localIP) m (read si) []) =? 0)%nat
            = match filterRead rp (localIPPrefixOf localIP) m (read si) [] with
              | [] => true | _ => false end) as Hlen.
  { intros rp. by destruct (filterRead _ _ _ _ _). }
  unfold rewriteRead.
  destruct (readPrefer =? READ_PREFER_MASTER) eqn:E0.
  { apply Z.eqb_eq in E0. subst readPrefer. simpl.
    repeat split; try done.
    - intros e [<-|[]]. by right. }
  apply Z.eqb_neq in E0.
  destruct (readPrefer =? READ_PREFER_SLAVE) eqn:E1.
  { apply Z.eqb_eq in E1. subst readPrefer. simpl.
    rewrite Hlen, filterRead_filter. simpl.
    assert (List.filter (fun node => isAlive m node && true) (read si)
            = List.filter alive (read si)) as ->.
    { apply List.filter_ext. intros x. by rewrite andb_true_r, Halive. }
    assert ((if match List.filter alive (read si) with [] => true | _ => false end
             then [write si] else List.filter alive (read si))
            = orWrite si (List.filter alive (read si))) as ->.
    { by destruct (List.filter alive (read si)). }
    repeat split; try done.
    - apply Hclosure. intros e He. by apply List.filter_In in He as [_ He].
    - apply Hclosure. intros e He. by apply List.filter_In in He as [_ He]. }
  apply Z.eqb_neq in E1.
  destruct (readPrefer =? READ_PREFER_SLAVE_IDC) eqn:E2.
  { apply Z.eqb_eq in E2. subst readPrefer. simpl.
    rewrite Hlen, filterRead_filter. simpl.
    assert (List.filter (fun node => isAlive m node && HasPrefix node (localIPPrefixOf localIP))
              (read si)
            = List.filter (fun n => alive n && local n) (read si)) as ->.
    { apply List.filter_ext. intros x. by rewrite Halive. }
    assert ((if match List.filter (fun n => alive n && local n) (read si) with
                | [] => true | _ => false end
             then [write si] else List.filter (fun n => alive n && local n) (read si))
            = orWrite si (List.filter (fun n => alive n && local n) (read si))) as ->.
    { by destruct (List.filter _ (read si)). }
    repeat split; try done.
    - intros a b rest Ha Hb ->. by apply localIPPrefixOf_dotted.
    - apply Hclosure. intros e He.
      apply List.filter_In in He as [_ He]. by apply andb_prop in He as [He _].
    - apply Hclosure. intros e He.
      apply List.filter_In in He as [_ He]. by apply andb_prop in He as [He _]. }
  apply Z.eqb_neq in E2. simpl.
  split_and!; try done. intros [?|[?|?]]; done.
Qed.

End ReadPreference.

Lemma doReload_read_preference_witness :
  Dispatcher.reloadFilter Dispatcher.READ_PREFER_SLAVE_IDC "10.4.1.1" exampleNodes
    [exampleSlotInfo]
  = Ok [Dispatcher.set_read ["10.4.17.167:7704"] exampleSlotInfo]
  /\ length [Dispatcher.set_read ["10.4.17.167:7704"] exampleSlotInfo]
     = length [exampleSlotInfo].
Proof.
  split; [vm_compute; reflexivity|].
  apply (doReload_read_preference Dispatcher.READ_PREFER_SLAVE_IDC "10.4.1.1"
           exampleNodes [exampleSlotInfo]
           [Dispatcher.set_read ["10.4.17.167:7704"] exampleSlotInfo]).
  vm_compute; reflexivity.
Defined.

(** ** The reload signal and the refresh loop *)

Section Reload.
Import Dispatcher ReloadLoop.

Lemma TriggerReloadSlots_run (w : World) :
  TriggerReloadSlots w
  = (Ok tt, set_slotReloadChan (afterTrigger (slotReloadChan w))
              (set_trace (trace w ++ [EvTriggerReloadSlots]) w)).
Proof.
  unfold TriggerReloadSlots, afterTrigger, bind, emit, modify, get, put, ret. simpl.
  by destruct (trySend (slotReloadChan w)).
Qed.

(** [TriggerReloadSlots] returns to its caller from every state. *)
Lemma TriggerReloadSlots_returns : returns TriggerReloadSlots.
Proof. intros w. exists tt. by rewrite TriggerReloadSlots_run. Qed.

(** A plain send on the full channel, by contrast, does not proceed. *)
Lemma blockingSend_full (w : World) :
  buffered (slotReloadChan w) = capacity (slotReloadChan w) ->
  (blockingSend w).1 = Blocked "send on a full channel".
Proof.
  intros Hfull. unfold blockingSend, bind, get, trySend. simpl.
  rewrite Hfull. by rewrite Nat.ltb_irrefl.
Qed.

Lemma afterTrigger_capacity (c : Chan) : capacity (afterTrigger c) = capacity c.
Proof. unfold afterTrigger, trySend. by destruct (_ <? _)%nat. Qed.

(** At most [capacity] signals are pending, before and after a call. *)
Lemma afterTrigger_bounded (c : Chan) :
  (buffered c <= capacity c)%nat -> (buffered (afterTrigger c) <= capacity c)%nat.
Proof.
  unfold afterTrigger, trySend. intros Hc.
  destruct (Nat.ltb_spec (buffered c) (capacity c)); simpl; lia.
Qed.

(** A call made while the channel is full is dropped. *)
Lemma afterTrigger_full (c : Chan) : buffered c = capacity c -> afterTrigger c = c.
Proof. unfold afterTrigger, trySend. intros ->. by rewrite Nat.ltb_irrefl. Qed.

(** With the capacity of [NewDispatcher], exactly one signal is pending
    after any call. *)
Lemma afterTrigger_one (c : Chan) :
  capacity c = 1%nat -> (buffered c <= 1)%nat -> buffered (afterTrigger c) = 1%nat.
Proof.
  unfold afterTrigger, trySend. intros Hcap Hb. rewrite Hcap.
  destruct (Nat.ltb_spec (buffered c) 1); simpl; lia.
Qed.

Lemma callsUntil_run (t : Z) (ts : list Z) (w : World) :
  exists rest w',
    callsUntil t ts w = (Ok rest, w')
    /\ capacity (slotReloadChan w') = capacity (slotReloadChan w)
    /\ ((buffered (slotReloadChan w) <= capacity (slotReloadChan w))%nat ->
        (buffered (slotReloadChan w') <= capacity (slotReloadChan w))%nat).
Proof.
  revert w. induction ts as [|t' ts IH]; intros w.
  - exists [], w. by repeat split.
  - cbn [callsUntil]. destruct (t' <=? t).
    + unfold bind at 1. rewrite TriggerReloadSlots_run.
      destruct (IH (set_slotReloadChan (afterTrigger (slotReloadChan w))
                      (set_trace (trace w ++ [EvTriggerReloadSlots]) w)))
        as (rest & w' & E & Hcap & Hb).
      exists rest, w'. split; [exact E|]. simpl in Hcap, Hb.
      rewrite afterTrigger_capacity in Hcap, Hb. split; [done|].
      intros Hw. by apply Hb, afterTrigger_bounded.
    + exists (t' :: ts), w. by repeat split.
Qed.

(** A burst of calls that are all due leaves exactly one signal. *)
Lemma callsUntil_burst (t : Z) (ts : list Z) (w : World) :
  ts <> [] -> Forall (fun t' => t' <= t) ts ->
  capacity (slotReloadChan w) = 1%nat -> (buffered (slotReloadChan w) <= 1)%nat ->
  exists w',
    callsUntil t ts w = (Ok [], w')
    /\ capacity (slotReloadChan w') = 1%nat /\ buffered (slotReloadChan w') = 1%nat.
Proof.
  revert w. induction ts as [|t' ts IH]; intros w Hne Hall Hcap Hb; [done|].
  apply Forall_cons in Hall as [Ht Hall].
  cbn [callsUntil]. apply Z.leb_le in Ht. rewrite Ht.
  unfold bind at 1. rewrite TriggerReloadSlots_run.
  set (w1 := set_slotReloadChan _ _).
  assert (capacity (slotReloadChan w1) = 1%nat) as Hcap1.
  { subst w1. simpl. by rewrite afterTrigger_capacity. }
  assert (buffered (slotReloadChan w1) = 1%nat) as Hb1.
  { subst w1. simpl. by apply afterTrigger_one. }
  destruct ts as [|t'' ts].
  - exists w1. by repeat split.
  - apply IH; try done. lia.
Qed.

Lemma advanceTo_run (t : Z) (tl : Timeline) :
  exists rest w',
    callsUntil t (triggers tl) (world tl) = (Ok rest, w')
    /\ advanceTo t tl = (Ok tt, mkTimeline (Z.max (now tl) t) rest w' (reloads tl)).
Proof.
  destruct (callsUntil_run t (triggers tl) (world tl)) as (rest & w' & E & _).
  exists rest, w'. split; [done|].
  unfold advanceTo, bind, get, zoom, modify. simpl. by rewrite E.
Qed.

Lemma takeSignal_reloads (tl : Timeline) :
  exists got tl', takeSignal tl = (Ok got, tl') /\ reloads tl' = reloads tl.
Proof.
  unfold takeSignal, bind, get, put, ret. simpl.
  destruct (tryRecv (slotReloadChan (world tl))); eauto.
Qed.

(** One pass through the [select] starts exactly one reload. *)
Lemma selectAndReload_one (tl : Timeline) :
  exists tl', selectAndReload tl = (Ok tt, tl')
              /\ length (reloads tl') = S (length (reloads tl)).
Proof.
  unfold selectAndReload. unfold timeAfter. unfold bind at 1. unfold bind at 1.
  cbn [get ret]. unfold bind at 1.
  destruct (takeSignal_reloads tl) as (got & tl1 & E1 & R1). rewrite E1.
  assert (forall c tl0, reloads tl0 = reloads tl ->
            exists tl', reload c tl0 = (Ok tt, tl')
                        /\ length (reloads tl') = S (length (reloads tl))) as Hreload.
  { intros c tl0 R0. eexists. split; [reflexivity|]. simpl.
    rewrite length_app, R0. simpl. lia. }
  assert (forall c t tl0, reloads tl0 = reloads tl ->
            exists tl', (advanceTo t ;; reload c) tl0 = (Ok tt, tl')
                        /\ length (reloads tl') = S (length (reloads tl))) as Hwait.
  { intros c t tl0 R0. destruct (advanceTo_run t tl0) as (rest & w' & _ & E).
    unfold bind. rewrite E. apply Hreload. by simpl. }
  destruct got; [by apply Hreload|].
  unfold bind at 1. cbn [get].
  destruct (triggers tl1) as [|t ts] eqn:Ets; [by apply Hwait|].
  destruct (t <? _); [|by apply Hwait].
  destruct (advanceTo_run t tl1) as (rest & w' & _ & E).
  unfold bind at 1. rewrite E.
  destruct (takeSignal_reloads (mkTimeline (Z.max (now tl1) t) rest w' (reloads tl1)))
    as (got2 & tl2 & E2 & R2).
  unfold bind at 1. rewrite E2. simpl in R2.
  destruct got2; [apply Hreload | apply Hwait]; congruence.
Qed.

(** C4. The refresh loop, however long it is followed, handles exactly one
    wakeup: it waits [slotReloadInterval], takes the signal or the periodic
    timer, starts one reload, and then waits for a second value of the
    one-shot channel of [time.After], which never comes. *)
Theorem slotsReloadLoop_single_wakeup (d : Dispatcher) (fuel : nat) (tl : Timeline) :
  (2 <= fuel)%nat ->
  exists tl',
    slotsReloadLoop d fuel tl
    = (Blocked "receive on a timer channel that has delivered", tl')
    /\ length (reloads tl') = S (length (reloads tl)).
Proof.
  intros Hfuel. destruct fuel as [|[|fuel]]; [lia | lia |].
  unfold slotsReloadLoop, timeAfter. unfold bind at 1. unfold bind at 1.
  cbn [get ret]. cbn [rangeTimer]. unfold recvTimer at 1. cbn [delivered fireAt].
  destruct (advanceTo_run (now tl + slotReloadInterval d) tl) as (rest & w' & _ & E).
  set (tl1 := mkTimeline _ rest w' (reloads tl)) in E.
  erewrite (bind_run _ _ tl tl1); [|unfold bind; rewrite E; reflexivity].
  destruct (selectAndReload_one tl1) as (tl2 & E2 & R2).
  erewrite (bind_run _ _ tl1 tl2); [|exact E2].
  exists tl2. split; [reflexivity | exact R2].
Qed.

Lemma slotsReloadLoop_single_wakeup_witness :
  exists tl',
    slotsReloadLoop exampleDispatcher 5 (mkTimeline 0 [] exampleWorld [])
    = (Blocked "receive on a timer channel that has delivered", tl')
    /\ length (reloads tl') = 1%nat.
Proof.
  apply (slotsReloadLoop_single_wakeup exampleDispatcher 5
           (mkTimeline 0 [] exampleWorld [])).
  lia.
Defined.

(** A burst of calls made before the loop wakes for the first time causes
    exactly one refresh, by the signal. *)
Lemma burst_before_first_wakeup (d : Dispatcher) (fuel : nat) (tl : Timeline) :
  (2 <= fuel)%nat -> 0 <= slotReloadInterval d ->
  triggers tl <> [] ->
  Forall (fun t => t <= now tl + slotReloadInterval d) (triggers tl) ->
  capacity (slotReloadChan (world tl)) = 1%nat ->
  (buffered (slotReloadChan (world tl)) <= 1)%nat ->
  exists tl',
    slotsReloadLoop d fuel tl
    = (Blocked "receive on a timer channel that has delivered", tl')
    /\ reloads tl' = reloads tl ++ [(now tl + slotReloadInterval d, BySignal)]
    /\ triggers tl' = []
    /\ buffered (slotReloadChan (world tl')) = 0%nat.
Proof.
  intros Hfuel Hd Hne Hall Hcap Hb. destruct fuel as [|[|fuel]]; [lia | lia |].
  unfold slotsReloadLoop, timeAfter. unfold bind at 1. unfold bind at 1.
  cbn [get ret]. cbn [rangeTimer]. unfold recvTimer at 1. cbn [delivered fireAt].
  destruct (callsUntil_burst _ _ _ Hne Hall Hcap Hb) as (w' & Ecalls & Hcap' & Hb').
  destruct (advanceTo_run (now tl + slotReloadInterval d) tl) as (rest & w'' & Ec & E).
  rewrite Ecalls in Ec. injection Ec as <- <-.
  replace (Z.max (now tl) (now tl + slotReloadInterval d))
    with (now tl + slotReloadInterval d) in E by lia.
  set (tl1 := mkTimeline _ [] w' (reloads tl)) in E.
  erewrite (bind_run _ _ tl tl1); [|unfold bind; rewrite E; reflexivity].
  destruct (slotReloadChan w') as [cap buf] eqn:Ech. simpl in Hcap', Hb'. subst cap buf.
  eexists. split.
  - unfold selectAndReload, timeAfter, takeSignal, tryRecv, bind, get, put, ret, reload,
      modify, recvTimer, blocked.
    simpl. rewrite Ech. simpl. reflexivity.
  - simpl. by repeat split.
Qed.

(** C5. Three calls of [TriggerReloadSlots] within one reload interval,
    made after the loop has handled its only wakeup (the periodic one, at
    61 s): the loop is blocked, no refresh follows however long one waits,
    and the signal stays in the channel. *)
Theorem TriggerReloadSlots_burst_after_wakeup :
  let tl0 := mkTimeline 0 [100000; 100100; 100200] exampleWorld [] in
  let tl1 := (slotsReloadLoop exampleDispatcher 10 tl0).2 in
  let tl2 := (advanceTo 1000000 tl1).2 in
  (slotsReloadLoop exampleDispatcher 10 tl0).1
    = Blocked "receive on a timer channel that has delivered"
  /\ reloads tl1 = [(61000, ByTimer)]
  /\ triggers tl2 = [] /\ now tl2 = 1000000
  /\ reloads tl2 = [(61000, ByTimer)]
  /\ buffered (slotReloadChan (world tl2)) = 1%nat.
Proof. vm_compute. by repeat split. Qed.

End Reload.

(** ** Computations of the network layer return *)

Lemma returns_emit (e : Event) : returns (emit e).
Proof. apply returns_modify. Qed.

Lemma returns_io : returns io.
Proof. intros w. unfold io. destruct (script w); eauto. Qed.

Ltac returns_step :=
  first
    [ apply returns_ret
    | apply returns_get
    | apply returns_put
    | apply returns_modify
    | apply returns_emit
    | apply returns_io
    | apply returns_zoom
    | apply returns_bind; [|intros ?]
    | match goal with
      | |- returns (match ?x with _ => _ end) => destruct x
      | |- returns (let '(_, _) := ?x in _) => destruct x
      end ].

Ltac returns_tac := repeat returns_step.

Lemma returns_dial (server : string) : returns (dial server).
Proof. unfold dial. returns_tac. Qed.

Lemma returns_connWrite (c : Conn) (buf : string) : returns (connWrite c buf).
Proof. unfold connWrite. returns_tac. Qed.

Lemma returns_connRead (c : Conn) : returns (connRead c).
Proof. unfold connRead. returns_tac. Qed.

Lemma returns_connClose (c : Conn) : returns (connClose c).
Proof. apply returns_emit. Qed.

Lemma returns_send (q : nat) (r : PipelineResponse) : returns (send (Some q) r).
Proof. apply returns_modify. Qed.

Lemma returns_Valkey_Request cp command conn : returns (Valkey.Request cp command conn).
Proof.
  unfold Valkey.Request.
  repeat first [apply returns_connWrite | apply returns_connRead | returns_step].
Qed.

Lemma returns_postConnect cp conn : returns (Valkey.postConnect cp conn).
Proof.
  unfold Valkey.postConnect.
  repeat first [apply returns_Valkey_Request | apply returns_connClose | returns_step].
Qed.

Lemma returns_Conn cp server : returns (Valkey.Conn cp server).
Proof.
  unfold Valkey.Conn.
  repeat first [apply returns_dial | apply returns_postConnect | returns_step].
Qed.

Lemma returns_initRWConn tr c : returns (Backend.initRWConn tr c).
Proof. unfold Backend.initRWConn. repeat first [apply returns_connClose | returns_step]. Qed.

Lemma returns_NewBackendServer server vc : returns (Backend.NewBackendServer server vc).
Proof.
  unfold Backend.NewBackendServer.
  repeat first [apply returns_Conn | apply returns_initRWConn | returns_step].
Qed.

(** ** The reader side of the session *)

Section ReaderFacts.
Import Session.
Context `{CommandTable}.

Lemma getNextReqSeq_run (p : Proxy) :
  getNextReqSeq p
  = (Ok (reqSeq (sess p)), set_sess (set_reqSeq (int64 (reqSeq (sess p) + 1)) (sess p)) p).
Proof. reflexivity. Qed.

Lemma handleErrorCmd_run (msg : string) (p : Proxy) :
  handleErrorCmd msg p = (Ok tt, replied (errorReply msg) p).
Proof. reflexivity. Qed.

Lemma handleSimpleStringCmd_run (msg : string) (p : Proxy) :
  handleSimpleStringCmd msg p = (Ok tt, replied (simpleReply msg) p).
Proof. reflexivity. Qed.

Lemma returns_handleErrorCmd msg : returns (handleErrorCmd msg).
Proof. intros p. exists tt. by rewrite handleErrorCmd_run. Qed.

Lemma returns_handleSimpleStringCmd msg : returns (handleSimpleStringCmd msg).
Proof. intros p. exists tt. by rewrite handleSimpleStringCmd_run. Qed.

Lemma returns_inWorld {A : Type} (m : M World A) : returns m -> returns (inWorld m).
Proof. apply returns_zoom. Qed.

Lemma returns_poolGet server : returns (poolGet server).
Proof.
  unfold poolGet, inWorld.
  repeat first [apply returns_NewBackendServer | returns_step].
Qed.

Lemma returns_poolPut b : returns (poolPut b).
Proof. apply returns_modify. Qed.

Lemma returns_execOne cmd : returns (execOne cmd).
Proof.
  unfold execOne, inWorld.
  repeat first [apply returns_poolGet | apply returns_poolPut | apply returns_connWrite
               | apply returns_connRead | returns_step].
Qed.

Lemma returns_execAll cmds replies : returns (execAll cmds replies).
Proof.
  revert replies. induction cmds as [|cmd rest IH]; intros replies; simpl.
  - apply returns_ret.
  - apply returns_bind; [apply returns_execOne|].
    intros [reply|e]; [apply IH | apply returns_ret].
Qed.

Lemma returns_Exec : returns Exec.
Proof.
  unfold Exec, getSess.
  repeat first [apply returns_execAll | returns_step].
Qed.

Lemma returns_toBackQ r : returns (toBackQ r).
Proof. unfold toBackQ, getSess, inWorld. repeat first [apply returns_send | returns_step]. Qed.

Lemma handle_inside_MULTI (cmd : Command) (p : Proxy) :
  passesAuthGate (sess p) cmd = true -> is_Some (multiCmd (sess p)) ->
  handle cmd p = handleMultiCmd cmd p.
Proof.
  intros Hgate [buffered Hb]. unfold passesAuthGate in Hgate.
  apply negb_true_iff in Hgate.
  unfold handle. unfold bind at 1. cbn [getSess bind get ret]. rewrite Hgate.
  rewrite Hb. rewrite bool_decide_true by done.
  by rewrite orb_true_r.
Qed.

Lemma handle_refused (cmd : Command) (p : Proxy) :
  passesAuthGate (sess p) cmd = false ->
  handle cmd p = (Ok tt, replied (errorReply NOAUTH_ERR) p).
Proof.
  intros Hgate. unfold passesAuthGate in Hgate. apply negb_false_iff in Hgate.
  unfold handle. unfold bind at 1. cbn [getSess bind get ret]. by rewrite Hgate.
Qed.

Lemma handleMultiCmd_nested (cmd : Command) (p : Proxy) (buffered : list Command) :
  Name cmd = "MULTI" -> multiCmd (sess p) = Some buffered ->
  handleMultiCmd cmd p
  = (Ok tt, replied (errorReply "ERR MULTI calls can not be nested") p).
Proof.
  intros Hn Hb. unfold handleMultiCmd. unfold bind at 1. cbn [getSess bind get ret].
  by rewrite Hn, Hb.
Qed.

Lemma handleMultiCmd_refuse (cmd : Command) (p : Proxy) :
  Name cmd <> "MULTI" -> Name cmd <> "EXEC" -> queueable cmd = false ->
  handleMultiCmd cmd p = (Ok tt, replied (errorReply UNKNOWN_CMD_ERR) (markedBad p)).
Proof.
  intros Hm He Hq. unfold handleMultiCmd. unfold bind at 1. cbn [getSess bind get ret].
  apply String.eqb_neq in Hm, He. rewrite Hm, He.
  unfold queueable in Hq. by rewrite Hq.
Qed.

Lemma handleMultiCmd_queue (cmd : Command) (p : Proxy) (buffered : list Command) :
  Name cmd <> "MULTI" -> Name cmd <> "EXEC" -> queueable cmd = true ->
  multiCmd (sess p) = Some buffered ->
  handleMultiCmd cmd p = (Ok tt, replied (simpleReply "QUEUED") (queued cmd p)).
Proof.
  intros Hm He Hq Hb. unfold handleMultiCmd. unfold bind at 1. cbn [getSess bind get ret].
  apply String.eqb_neq in Hm, He. rewrite Hm, He.
  unfold queueable in Hq. rewrite Hq, Hb. unfold queued. by rewrite Hb.
Qed.

Lemma handleMultiCmd_abort (cmd : Command) (p : Proxy) (buffered : list Command) :
  Name cmd = "EXEC" -> multiCmd (sess p) = Some buffered -> multiCmdErr (sess p) = true ->
  handleMultiCmd cmd p
  = (Ok tt,
     set_sess (set_multiCmd None
                 (sess (replied (errorReply "EXECABORT Transaction discarded")
                          (set_sess (set_multiCmdErr false (sess p)) p))))
       (replied (errorReply "EXECABORT Transaction discarded")
          (set_sess (set_multiCmdErr false (sess p)) p))).
Proof.
  intros Hn Hb He. unfold handleMultiCmd. unfold bind at 1. cbn [getSess bind get ret].
  by rewrite Hn, Hb, He.
Qed.

(** C10. Whatever the state of the session, handling EXEC returns and
    leaves [multiCmd] nil: without an open MULTI, for a transaction marked
    bad, when the execution fails and when it succeeds. *)
Theorem handleMultiCmd_EXEC_clears_buffer (cmd : Command) (p : Proxy) :
  Name cmd = "EXEC" ->
  exists p', handleMultiCmd cmd p = (Ok tt, p') /\ multiCmd (sess p') = None.
Proof.
  intros Hn. unfold handleMultiCmd. unfold bind at 1. cbn [getSess bind get ret].
  rewrite Hn. cbn [String.eqb Ascii.eqb Bool.eqb andb].
  match goal with
  | |- exists p', bind ?m ?k p = _ /\ _ =>
      assert (returns m) as Hm
  end.
  { repeat first
      [ match goal with
        | |- returns (handleErrorCmd _) => apply returns_handleErrorCmd
        | |- returns Exec => apply returns_Exec
        | |- returns (toBackQ _) => apply returns_toBackQ
        end
      | returns_step ]. }
  destruct (returns_run _ p Hm) as [[] E].
  erewrite bind_run by exact E.
  eexists. split; reflexivity.
Qed.

Lemma nothingForwarded_refl (p : Proxy) : nothingForwarded p p.
Proof. by repeat split. Qed.

Lemma nothingForwarded_trans (p1 p2 p3 : Proxy) :
  nothingForwarded p1 p2 -> nothingForwarded p2 p3 -> nothingForwarded p1 p3.
Proof.
  intros (A1 & A2 & A3 & A4 & A5) (B1 & B2 & B3 & B4 & B5).
  repeat split; congruence.
Qed.

Lemma passesAuthGate_same (cmd : Command) (p p' : Proxy) :
  nothingForwarded p p' -> passesAuthGate (sess p') cmd = passesAuthGate (sess p) cmd.
Proof.
  intros (_ & _ & _ & Ha & Hv). unfold passesAuthGate, checkAuth. by rewrite Ha, Hv.
Qed.

Lemma handle_MULTI_opens (cmd : Command) (p : Proxy) :
  Name cmd = "MULTI" -> multiCmd (sess p) = None ->
  passesAuthGate (sess p) cmd = true ->
  handle cmd p = (Ok tt, opened p).
Proof.
  intros Hn Hm Hgate. unfold passesAuthGate in Hgate. apply negb_true_iff in Hgate.
  unfold handle. unfold bind at 1. cbn [getSess bind get ret]. rewrite Hgate, Hn.
  cbn [String.eqb Ascii.eqb Bool.eqb andb orb].
  unfold handleMultiCmd. unfold bind at 1. cbn [getSess bind get ret].
  by rewrite Hn, Hm.
Qed.

(** While a buffer is open, a command other than EXEC leaves it open, keeps
    the bad mark if there is one, and reaches no backend server. *)
Lemma handle_inside_open (cmd : Command) (p : Proxy) :
  Name cmd <> "EXEC" -> is_Some (multiCmd (sess p)) ->
  exists p', handle cmd p = (Ok tt, p')
             /\ is_Some (multiCmd (sess p'))
             /\ (multiCmdErr (sess p) = true -> multiCmdErr (sess p') = true)
             /\ nothingForwarded p p'.
Proof.
  intros He Hopen.
  destruct (passesAuthGate (sess p) cmd) eqn:Hgate.
  - rewrite handle_inside_MULTI by done.
    destruct Hopen as [buffered Hb].
    destruct (String.eqb_spec (Name cmd) "MULTI") as [Hm|Hm].
    + rewrite (handleMultiCmd_nested _ _ _ Hm Hb). eexists. split; [reflexivity|].
      simpl. rewrite Hb. by repeat split.
    + destruct (queueable cmd) eqn:Hq.
      * rewrite (handleMultiCmd_queue _ _ _ Hm He Hq Hb). eexists. split; [reflexivity|].
        simpl. by repeat split.
      * rewrite (handleMultiCmd_refuse _ _ Hm He Hq). eexists. split; [reflexivity|].
        simpl. rewrite Hb. by repeat split.
  - rewrite handle_refused by done. eexists. split; [reflexivity|].
    simpl. by repeat split.
Qed.

Lemma handleEach_inside_open (cmds : list Command) (p : Proxy) :
  Forall (fun c => Name c <> "EXEC") cmds -> is_Some (multiCmd (sess p)) ->
  exists p', handleEach cmds p = (Ok tt, p')
             /\ is_Some (multiCmd (sess p'))
             /\ (multiCmdErr (sess p) = true -> multiCmdErr (sess p') = true)
             /\ nothingForwarded p p'.
Proof.
  revert p. induction cmds as [|cmd rest IH]; intros p Hall Hopen.
  - exists p. split; [reflexivity|]. split; [done|]. split; [done|].
    apply nothingForwarded_refl.
  - apply Forall_cons in Hall as [Hc Hall].
    destruct (handle_inside_open cmd p Hc Hopen) as (p1 & E1 & O1 & B1 & N1).
    destruct (IH p1 Hall O1) as (p2 & E2 & O2 & B2 & N2).
    exists p2. split.
    + cbn [handleEach]. by erewrite bind_run by exact E1.
    + split; [done|]. split; [by intros Hbad; apply B2, B1|].
      exact (nothingForwarded_trans _ _ _ N1 N2).
Qed.

Lemma handleEach_app_run (l1 l2 : list Command) (p p1 : Proxy) :
  handleEach l1 p = (Ok tt, p1) -> handleEach (l1 ++ l2) p = handleEach l2 p1.
Proof.
  revert p. induction l1 as [|cmd rest IH]; intros p E.
  - by injection E as <-.
  - cbn [handleEach app] in *. unfold bind in E.
    destruct (handle cmd p) as [[[]|m|m|m] p0] eqn:E0; try discriminate.
    erewrite bind_run by exact E0. by apply IH.
Qed.

(** C7 (as amended). While a MULTI buffer is open: a command held back by
    the authentication test of [handle], whatever its name, is answered
    [-NOAUTH Authentication required.] and changes neither the buffer nor
    the bad mark.  Of the commands that pass the test, one other than MULTI
    and EXEC is answered [+QUEUED] and appended when its class is General or
    Read, and is answered [-ERR unknown command] and marks the transaction
    bad otherwise; a nested MULTI is answered
    [-ERR MULTI calls can not be nested] and changes neither the buffer nor
    the mark.  When one of the commands handled since [p] has marked the
    transaction bad, whatever commands other than EXEC came before and after
    it, nothing has been sent to a backend server, and the next EXEC is
    answered [-EXECABORT Transaction discarded] and drops the buffer, still
    with nothing sent to a backend server, if it passes the authentication
    test; if it is held back it is answered [-NOAUTH] and the buffer stays
    open and marked bad. *)
Theorem MULTI_buffering (p : Proxy) (buffered : list Command) :
  multiCmd (sess p) = Some buffered ->
  (forall cmd,
     passesAuthGate (sess p) cmd = false ->
     handle cmd p = (Ok tt, replied (errorReply NOAUTH_ERR) p)
     /\ multiCmd (sess (replied (errorReply NOAUTH_ERR) p)) = Some buffered
     /\ multiCmdErr (sess (replied (errorReply NOAUTH_ERR) p)) = multiCmdErr (sess p))
  /\ (forall cmd,
        passesAuthGate (sess p) cmd = true -> Name cmd <> "MULTI" -> Name cmd <> "EXEC" ->
        (queueable cmd = true ->
           handle cmd p = (Ok tt, replied (simpleReply "QUEUED") (queued cmd p))
           /\ multiCmd (sess (replied (simpleReply "QUEUED") (queued cmd p)))
              = Some (buffered ++ [cmd])
           /\ multiCmdErr (sess (replied (simpleReply "QUEUED") (queued cmd p)))
              = multiCmdErr (sess p))
        /\ (queueable cmd = false ->
              handle cmd p = (Ok tt, replied (errorReply UNKNOWN_CMD_ERR) (markedBad p))
              /\ multiCmd (sess (replied (errorReply UNKNOWN_CMD_ERR) (markedBad p)))
                 = Some buffered
              /\ multiCmdErr (sess (replied (errorReply UNKNOWN_CMD_ERR) (markedBad p)))
                 = true))
  /\ (forall cmd,
        passesAuthGate (sess p) cmd = true -> Name cmd = "MULTI" ->
        handle cmd p
        = (Ok tt, replied (errorReply "ERR MULTI calls can not be nested") p)
        /\ multiCmd (sess (replied (errorReply "ERR MULTI calls can not be nested") p))
           = Some buffered
        /\ multiCmdErr (sess (replied (errorReply "ERR MULTI calls can not be nested") p))
           = multiCmdErr (sess p))
  /\ (forall before cmd after exec,
        Forall (fun c => Name c <> "EXEC") (before ++ cmd :: after) ->
        passesAuthGate (sess p) cmd = true -> Name cmd <> "MULTI" ->
        queueable cmd = false ->
        Name exec = "EXEC" ->
        exists p',
          handleEach (before ++ cmd :: after) p = (Ok tt, p')
          /\ nothingForwarded p p'
          /\ (passesAuthGate (sess p) exec = true ->
                handle exec p' = (Ok tt, aborted p')
                /\ multiCmd (sess (aborted p')) = None
                /\ nothingForwarded p (aborted p'))
          /\ (passesAuthGate (sess p) exec = false ->
                handle exec p' = (Ok tt, replied (errorReply NOAUTH_ERR) p')
                /\ is_Some (multiCmd (sess (replied (errorReply NOAUTH_ERR) p')))
                /\ multiCmdErr (sess (replied (errorReply NOAUTH_ERR) p')) = true)).
Proof.
  intros Hb. split; [|split; [|split]].
  - intros cmd Hgate. by rewrite handle_refused.
  - intros cmd Hgate Hm He. split.
    + intros Hq. rewrite handle_inside_MULTI by (by rewrite ?Hb).
      rewrite (handleMultiCmd_queue _ _ _ Hm He Hq Hb).
      split; [done|]. unfold queued. simpl. by rewrite Hb.
    + intros Hq. rewrite handle_inside_MULTI by (by rewrite ?Hb).
      by rewrite (handleMultiCmd_refuse _ _ Hm He Hq).
  - intros cmd Hgate Hm. rewrite handle_inside_MULTI by (by rewrite ?Hb).
    by rewrite (handleMultiCmd_nested _ _ _ Hm Hb).
  - intros before cmd after exec Hall Hgate Hm Hq Hx.
    apply Forall_app in Hall as [Hbefore Hrest].
    apply Forall_cons in Hrest as [He Hafter].
    destruct (handleEach_inside_open before p Hbefore) as (p1 & E1 & O1 & _ & N1).
    { by rewrite Hb. }
    assert (handle cmd p1 = (Ok tt, replied (errorReply UNKNOWN_CMD_ERR) (markedBad p1)))
      as E2.
    { rewrite handle_inside_MULTI.
      - by apply handleMultiCmd_refuse.
      - by rewrite (passesAuthGate_same _ _ _ N1).
      - done. }
    set (p2 := replied (errorReply UNKNOWN_CMD_ERR) (markedBad p1)) in E2.
    assert (nothingForwarded p1 p2) as N2 by (by repeat split).
    destruct (handleEach_inside_open after p2 Hafter) as (p3 & E3 & [b3 O3] & B3 & N3).
    { done. }
    assert (nothingForwarded p p3) as N.
    { exact (nothingForwarded_trans _ _ _ N1 (nothingForwarded_trans _ _ _ N2 N3)). }
    exists p3. split.
    { rewrite (handleEach_app_run _ _ _ _ E1). cbn [handleEach].
      by erewrite bind_run by exact E2. }
    split; [exact N|]. split.
    + intros Hgx. split.
      { rewrite handle_inside_MULTI.
        - by rewrite (handleMultiCmd_abort _ _ _ Hx O3 (B3 eq_refl)).
        - by rewrite (passesAuthGate_same _ _ _ N).
        - by rewrite O3. }
      split; [done|].
      eapply nothingForwarded_trans; [exact N|]. by repeat split.
    + intros Hgx. split.
      { apply handle_refused. by rewrite (passesAuthGate_same _ _ _ N). }
      split; [simpl; by rewrite O3 | exact (B3 eq_refl)].
Qed.

End ReaderFacts.

Lemma handleMultiCmd_EXEC_clears_buffer_witness :
  exists p', Session.handleMultiCmd (mkCommand ["EXEC"]) exampleOpenProxy = (Ok tt, p')
             /\ Session.multiCmd (Session.sess p') = None.
Proof. apply handleMultiCmd_EXEC_clears_buffer. reflexivity. Defined.

Lemma MULTI_buffering_witness :
  (exists p',
     handleEach [mkCommand ["GET"; "k"]; mkCommand ["BOGUS"];
                 mkCommand ["SET"; "a"; "b"]; mkCommand ["MULTI"]] exampleOpenProxy
     = (Ok tt, p')
     /\ Session.handle (mkCommand ["EXEC"]) p' = (Ok tt, aborted p')
     /\ Session.multiCmd (Session.sess (aborted p')) = None
     /\ nothingForwarded exampleOpenProxy (aborted p'))
  /\ (exists p',
        @handleEach lenientTable [mkCommand ["AUTH"; "secret"]] exampleHeldOpenProxy
        = (Ok tt, p')
        /\ @Session.handle lenientTable (mkCommand ["EXEC"]) p'
           = (Ok tt, replied (errorReply Session.NOAUTH_ERR) p')
        /\ is_Some (Session.multiCmd
                      (Session.sess (replied (errorReply Session.NOAUTH_ERR) p')))
        /\ Session.multiCmdErr
             (Session.sess (replied (errorReply Session.NOAUTH_ERR) p')) = true).
Proof.
  split.
  - destruct (MULTI_buffering exampleOpenProxy [] eq_refl) as (_ & _ & _ & Htx).
    destruct (Htx [mkCommand ["GET"; "k"]] (mkCommand ["BOGUS"])
                  [mkCommand ["SET"; "a"; "b"]; mkCommand ["MULTI"]]
                  (mkCommand ["EXEC"]))
      as (p' & E & _ & Hpass & _);
      [repeat constructor; discriminate | reflexivity | discriminate
      | reflexivity | reflexivity |].
    exists p'. split; [exact E|]. apply Hpass. reflexivity.
  - destruct (@MULTI_buffering lenientTable exampleHeldOpenProxy [] eq_refl)
      as (_ & _ & _ & Htx).
    destruct (Htx [] (mkCommand ["AUTH"; "secret"]) [] (mkCommand ["EXEC"]))
      as (p' & E & _ & _ & Hheld);
      [repeat constructor; discriminate | reflexivity | discriminate
      | reflexivity | reflexivity |].
    exists p'. split; [exact E|]. apply Hheld. reflexivity.
Defined.

(** C7, as the design states it: a nested MULTI is a command received while
    the buffer is open, and it is neither queued nor refused as an unknown
    command, whatever class the command table gives it. *)
Lemma nested_MULTI_neither_queued_nor_refused :
  ~ (exists tbl : Session.CommandTable, @every_command_in_MULTI_queued_or_refused tbl).
Proof.
  intros [tbl Hc].
  destruct (Hc exampleOpenProxy (mkCommand ["MULTI"])) as [Hrefused Hqueued].
  - by eexists.
  - done.
  - unfold passesAuthGate. simpl. by rewrite andb_false_r.
  - assert (Session.handle (mkCommand ["MULTI"]) exampleOpenProxy
            = (Ok tt, replied (errorReply "ERR MULTI calls can not be nested")
                        exampleOpenProxy)) as Hcode.
    { rewrite handle_inside_MULTI.
      - by apply (handleMultiCmd_nested _ _ []).
      - unfold passesAuthGate. simpl. by rewrite andb_false_r.
      - by eexists. }
    destruct (queueable (mkCommand ["MULTI"])) eqn:Hq.
    + specialize (Hqueued eq_refl). rewrite Hcode in Hqueued.
      apply (f_equal (fun x => Session.multiCmd (Session.sess x.2))) in Hqueued.
      simpl in Hqueued. discriminate.
    + specialize (Hrefused eq_refl). rewrite Hcode in Hrefused.
      apply (f_equal (fun x => Session.multiCmdErr (Session.sess x.2))) in Hrefused.
      simpl in Hrefused. discriminate.
Qed.

(** ** Authentication *)

Section AuthFacts.
Import Session.
Context `{CommandTable}.

Lemma handle_AUTH (cmd : Command) (p : Proxy) :
  Name cmd = "AUTH" -> multiCmd (sess p) = None ->
  passesAuthGate (sess p) cmd = true ->
  handle cmd p = handleAuthCmd cmd p.
Proof.
  intros Hn Hm Hgate. unfold passesAuthGate in Hgate. apply negb_true_iff in Hgate.
  unfold handle. unfold bind at 1. cbn [getSess bind get ret]. rewrite Hgate, Hm, Hn.
  reflexivity.
Qed.

Lemma handleAuthCmd_run (pw : string) (p : Proxy) :
  handleAuthCmd (mkCommand ["AUTH"; pw]) p
  = (Ok tt, if Valkey.Auth (valkeyConn (sess p)) pw
            then authed (replied (simpleReply OK) p)
            else replied (errorReply AUTH_CMD_ERR) p).
Proof.
  unfold handleAuthCmd. cbn [Args length Nat.eqb].
  unfold bind at 1. cbn [getSess bind get ret nth].
  by destruct (Valkey.Auth (valkeyConn (sess p)) pw).
Qed.

Lemma handleAuthCmd_arguments (cmd : Command) (p : Proxy) :
  length (Args cmd) <> 2%nat ->
  handleAuthCmd cmd p = (Ok tt, replied (errorReply ARGUMENTS_ERR) p).
Proof.
  intros Hlen. unfold handleAuthCmd. apply Nat.eqb_neq in Hlen. by rewrite Hlen.
Qed.

(** C8 (as amended). With a password configured and the session not yet
    authenticated, a command that requires authentication is answered
    [-NOAUTH Authentication required.] from the proxy and nothing is sent
    to a backend server.  Outside a transaction, [AUTH pw] that passes this
    test is answered [+OK] and marks the session authenticated when [pw] is
    the configured password, and is answered [-ERR invalid password] and
    leaves the session's mark unchanged otherwise; AUTH with another number
    of arguments is answered [-ERR wrong number of arguments].  While a
    MULTI buffer is open, [AUTH pw] that passes the test is not compared
    with the password: it is answered [+QUEUED] and appended when its class
    is General or Read, and is answered [-ERR unknown command] and marks the
    transaction bad otherwise, and the session's mark is unchanged. *)
Theorem authentication_gate (p : Proxy) :
  (forall cmd,
     Valkey.password (valkeyConn (sess p)) <> EmptyString ->
     auth (sess p) = false -> CmdAuthRequired cmd = true ->
     handle cmd p = (Ok tt, replied (errorReply NOAUTH_ERR) p)
     /\ nothingForwarded p (replied (errorReply NOAUTH_ERR) p))
  /\ (forall pw,
        multiCmd (sess p) = None ->
        passesAuthGate (sess p) (mkCommand ["AUTH"; pw]) = true ->
        (pw = Valkey.password (valkeyConn (sess p)) ->
           handle (mkCommand ["AUTH"; pw]) p = (Ok tt, authed (replied (simpleReply OK) p))
           /\ auth (sess (authed (replied (simpleReply OK) p))) = true)
        /\ (pw <> Valkey.password (valkeyConn (sess p)) ->
              handle (mkCommand ["AUTH"; pw]) p
              = (Ok tt, replied (errorReply AUTH_CMD_ERR) p)
              /\ auth (sess (replied (errorReply AUTH_CMD_ERR) p)) = auth (sess p)))
  /\ (forall cmd,
        Name cmd = "AUTH" -> length (Args cmd) <> 2%nat ->
        multiCmd (sess p) = None ->
        passesAuthGate (sess p) cmd = true ->
        handle cmd p = (Ok tt, replied (errorReply ARGUMENTS_ERR) p)
        /\ auth (sess (replied (errorReply ARGUMENTS_ERR) p)) = auth (sess p))
  /\ (forall pw buffered,
        multiCmd (sess p) = Some buffered ->
        passesAuthGate (sess p) (mkCommand ["AUTH"; pw]) = true ->
        (queueable (mkCommand ["AUTH"; pw]) = true ->
           handle (mkCommand ["AUTH"; pw]) p
           = (Ok tt, replied (simpleReply "QUEUED") (queued (mkCommand ["AUTH"; pw]) p))
           /\ auth (sess (replied (simpleReply "QUEUED")
                            (queued (mkCommand ["AUTH"; pw]) p))) = auth (sess p))
        /\ (queueable (mkCommand ["AUTH"; pw]) = false ->
              handle (mkCommand ["AUTH"; pw]) p
              = (Ok tt, replied (errorReply UNKNOWN_CMD_ERR) (markedBad p))
              /\ auth (sess (replied (errorReply UNKNOWN_CMD_ERR) (markedBad p)))
                 = auth (sess p))).
Proof.
  split; [|split; [|split]].
  - intros cmd Hpw Hauth Hreq. split; [|by repeat split].
    apply handle_refused. unfold passesAuthGate, checkAuth, Valkey.Auth.
    rewrite Hreq, Hauth. apply String.eqb_neq in Hpw. by rewrite Hpw.
  - intros pw Hm Hgate. split.
    + intros ->. rewrite handle_AUTH by done. split; [|done].
      rewrite handleAuthCmd_run. unfold Valkey.Auth. by rewrite String.eqb_refl.
    + intros Hne. rewrite handle_AUTH by done. split; [|done].
      rewrite handleAuthCmd_run. unfold Valkey.Auth.
      assert (Valkey.password (valkeyConn (sess p)) <> pw) as Hne' by congruence.
      apply String.eqb_neq in Hne'. by rewrite Hne'.
  - intros cmd Hn Hlen Hm Hgate. split; [|done].
    rewrite handle_AUTH by done. by apply handleAuthCmd_arguments.
  - intros pw buffered Hb Hgate. split.
    + intros Hq. split; [|done].
      rewrite handle_inside_MULTI by (by rewrite ?Hb).
      by apply (handleMultiCmd_queue _ _ buffered).
    + intros Hq. split; [|done].
      rewrite handle_inside_MULTI by (by rewrite ?Hb).
      by apply handleMultiCmd_refuse.
Qed.

End AuthFacts.

Lemma authentication_gate_witness :
  Session.handle (mkCommand ["GET"; "k"]) exampleSecretProxy
  = (Ok tt, replied (errorReply Session.NOAUTH_ERR) exampleSecretProxy)
  /\ Session.handle (mkCommand ["AUTH"; "secret"]) exampleSecretProxy
     = (Ok tt, authed (replied (simpleReply Session.OK) exampleSecretProxy))
  /\ Session.handle (mkCommand ["AUTH"; "guess"]) exampleSecretProxy
     = (Ok tt, replied (errorReply Session.AUTH_CMD_ERR) exampleSecretProxy)
  /\ Session.handle (mkCommand ["AUTH"]) exampleSecretProxy
     = (Ok tt, replied (errorReply Session.ARGUMENTS_ERR) exampleSecretProxy)
  /\ Session.handle (mkCommand ["AUTH"; "guess"]) exampleSecretOpenProxy
     = (Ok tt, replied (errorReply Session.UNKNOWN_CMD_ERR)
                       (markedBad exampleSecretOpenProxy)).
Proof.
  destruct (authentication_gate exampleSecretProxy) as (Hno & Hauth & Hargs & _).
  destruct (authentication_gate exampleSecretOpenProxy) as (_ & _ & _ & Hin).
  split; [|split; [|split; [|split]]].
  - apply Hno; [discriminate | reflexivity | reflexivity].
  - apply (Hauth "secret"); reflexivity.
  - apply (Hauth "guess"); [reflexivity | reflexivity | discriminate].
  - apply Hargs; [reflexivity | discriminate | reflexivity | reflexivity].
  - apply (Hin "guess" []); reflexivity.
Defined.

(** C8, as the design states it: the session of a proxy with the password
    [secret] does not answer every [AUTH pw] by comparing [pw] with the
    password, whatever the command table.  When the table asks
    authentication of AUTH itself, the first [AUTH secret] is answered
    [-NOAUTH]; otherwise, after [AUTH secret] and MULTI, a further
    [AUTH secret] is handled as a command of the transaction and answered
    [+QUEUED] or [-ERR unknown command]. *)
Lemma AUTH_inside_MULTI_is_not_checked :
  ~ (exists tbl : Session.CommandTable, @AUTH_always_checks_password tbl).
Proof.
  intros [tbl Hc].
  set (AUTH := mkCommand ["AUTH"; "secret"]).
  destruct (passesAuthGate (Session.sess exampleSecretProxy) AUTH) eqn:Hgate.
  - set (p1 := authed (replied (simpleReply Session.OK) exampleSecretProxy)).
    assert (Session.handle AUTH exampleSecretProxy = (Ok tt, p1)) as E1.
    { subst AUTH. rewrite handle_AUTH by done. by rewrite handleAuthCmd_run. }
    assert (Session.handle (mkCommand ["MULTI"]) p1 = (Ok tt, opened p1)) as E2.
    { apply handle_MULTI_opens; [done | done |].
      unfold passesAuthGate, Session.checkAuth. simpl. by rewrite andb_false_r. }
    assert (passesAuthGate (Session.sess (opened p1)) AUTH = true) as Hgate'.
    { unfold passesAuthGate, Session.checkAuth. simpl. by rewrite andb_false_r. }
    assert (handleEach [AUTH; mkCommand ["MULTI"]] exampleSecretProxy
            = (Ok tt, opened p1)) as E.
    { cbn [handleEach]. erewrite bind_run by exact E1.
      by erewrite bind_run by exact E2. }
    specialize (Hc _ _ "secret" E).
    rewrite handle_inside_MULTI in Hc by (done || by eexists).
    cbn [String.eqb Ascii.eqb Bool.eqb] in Hc.
    destruct (queueable AUTH) eqn:Hq.
    + rewrite (handleMultiCmd_queue _ _ []) in Hc by done.
      apply (f_equal (fun x => Session.multiCmd (Session.sess x.2))) in Hc.
      simpl in Hc. discriminate.
    + rewrite handleMultiCmd_refuse in Hc by done.
      apply (f_equal (fun x => Session.multiCmdErr (Session.sess x.2))) in Hc.
      simpl in Hc. discriminate.
  - specialize (Hc [] exampleSecretProxy "secret" eq_refl).
    rewrite handle_refused in Hc by done.
    apply (f_equal (fun x => Session.auth (Session.sess x.2))) in Hc.
    simpl in Hc. discriminate.
Qed.

(** ** The writer side: what reaches the client, and in which order *)

Lemma ensures_ret {S A : Type} (R : S -> S -> Prop) (V : A -> Prop) (a : A) :
  Reflexive R -> V a -> ensures (ret a) R V.
Proof. intros HR Ha s. split; [apply HR|]. by intros a' [= <-]. Qed.

Lemma ensures_bind {S A B : Type} (R : S -> S -> Prop) (V1 : A -> Prop) (V2 : B -> Prop)
    (m : M S A) (k : A -> M S B) :
  Transitive R -> ensures m R V1 -> (forall a, V1 a -> ensures (k a) R V2) ->
  ensures (bind m k) R V2.
Proof.
  intros HT Hm Hk s. unfold bind. destruct (Hm s) as [HR HV].
  destruct (m s) as [[a| | |] s'] eqn:E; simpl in *; try (split; [done|done]).
  destruct (Hk a (HV a eq_refl) s') as [HR' HV'].
  split; [by eapply HT | done].
Qed.

Lemma ensures_weaken {S A : Type} (R : S -> S -> Prop) (V V' : A -> Prop) (m : M S A) :
  (forall a, V a -> V' a) -> ensures m R V -> ensures m R V'.
Proof. intros HV Hm s. destruct (Hm s) as [HR Ha]. split; [done|]. intros a E. by apply HV, Ha. Qed.

Lemma steps_ensures {S A : Type} (R : S -> S -> Prop) (m : M S A) :
  steps R m -> ensures m R (fun _ => True).
Proof. intros Hm s. split; [apply Hm | done]. Qed.

Lemma ensures_steps {S A : Type} (R : S -> S -> Prop) (V : A -> Prop) (m : M S A) :
  ensures m R V -> steps R m.
Proof. intros Hm s. apply Hm. Qed.

Lemma clientWrites_app (a b : list Event) :
  clientWrites (a ++ b) = clientWrites a ++ clientWrites b.
Proof.
  induction a as [|e a IH]; [done|]. simpl. destruct e; simpl; by rewrite ?IH.
Qed.

#[local] Instance quietW_refl : Reflexive quietW.
Proof. intros w. exists []. by rewrite app_nil_r. Qed.

#[local] Instance quietW_trans : Transitive quietW.
Proof.
  intros w1 w2 w3 (n1 & E1 & Q1) (n2 & E2 & Q2). exists (n1 ++ n2).
  rewrite E2, E1, <- app_assoc. split; [done|].
  by rewrite clientWrites_app, Q1, Q2.
Qed.

#[local] Instance quiet_refl : Reflexive quiet.
Proof. intros p. split; [done | reflexivity]. Qed.

#[local] Instance quiet_trans : Transitive quiet.
Proof.
  intros p1 p2 p3 [S1 Q1] [S2 Q2]. split; [congruence | by etrans].
Qed.

Lemma steps_emit_quiet (e : Event) : clientWrites [e] = [] -> steps quietW (emit e).
Proof. intros He w. by exists [e]. Qed.

Lemma steps_io_quiet : steps quietW io.
Proof.
  intros w. unfold io. destruct (script w); simpl; exists []; by rewrite app_nil_r.
Qed.

Lemma steps_get {S : Type} (R : S -> S -> Prop) : Reflexive R -> steps R get.
Proof. intros HR s. apply HR. Qed.

Ltac quiet_step :=
  first
    [ apply steps_ret; [typeclasses eauto]
    | apply steps_get; [typeclasses eauto]
    | apply steps_io_quiet
    | apply steps_emit_quiet; reflexivity
    | apply steps_bind; [typeclasses eauto | | intros ?]
    | match goal with
      | |- steps _ (match ?x with _ => _ end) => destruct x
      end ].

Lemma steps_dial_quiet server : steps quietW (dial server).
Proof.
  intros w. unfold dial, bind, emit, modify, io, get, put, ret. simpl.
  destruct (script w) as [|[reply|e] rest]; simpl; by exists [EvDial server].
Qed.

Lemma steps_connWrite_quiet c buf : steps quietW (connWrite c buf).
Proof. unfold connWrite. repeat quiet_step. Qed.

Lemma steps_connRead_quiet c : steps quietW (connRead c).
Proof. unfold connRead. repeat quiet_step. Qed.

Lemma steps_connClose_quiet c : steps quietW (connClose c).
Proof. by apply steps_emit_quiet. Qed.

Lemma steps_Valkey_Request_quiet cp command conn :
  steps quietW (Valkey.Request cp command conn).
Proof.
  unfold Valkey.Request.
  repeat first [apply steps_connWrite_quiet | apply steps_connRead_quiet | quiet_step].
Qed.

Lemma steps_postConnect_quiet cp conn : steps quietW (Valkey.postConnect cp conn).
Proof.
  unfold Valkey.postConnect.
  repeat first [apply steps_Valkey_Request_quiet | apply steps_connClose_quiet | quiet_step].
Qed.

Lemma steps_Conn_quiet cp server : steps quietW (Valkey.Conn cp server).
Proof.
  unfold Valkey.Conn.
  repeat first [apply steps_dial_quiet | apply steps_postConnect_quiet | quiet_step].
Qed.

Lemma steps_TriggerReloadSlots_quiet : steps quietW Dispatcher.TriggerReloadSlots.
Proof. intros w. rewrite TriggerReloadSlots_run. by exists [EvTriggerReloadSlots]. Qed.

Section WriterFacts.
Import Session.

Lemma steps_inWorld_quiet {A : Type} (m : M World A) :
  steps quietW m -> steps quiet (inWorld m).
Proof.
  intros Hm p. unfold inWorld, zoom. specialize (Hm (world p)).
  destruct (m (world p)) as [r w']. simpl in *. by split.
Qed.

Lemma ensures_inWorld_quiet {A : Type} (m : M World A) (V : A -> Prop) :
  ensures m quietW V -> ensures (inWorld m) quiet V.
Proof.
  intros Hm p. unfold inWorld, zoom. destruct (Hm (world p)) as [HR HV].
  destruct (m (world p)) as [r w']. simpl in *. split; [by split | done].
Qed.

Lemma ensures_getSess (R : Proxy -> Proxy -> Prop) :
  Reflexive R -> ensures getSess R (fun _ => True).
Proof. intros HR p. split; [apply HR | done]. Qed.

Lemma ensures_redirectOn (conn : Conn) (plRsp : PipelineResponse) (ask : bool) :
  ensures (redirectOn conn plRsp ask) quietW (fun r => ctx r = ctx plRsp).
Proof.
  unfold redirectOn.
  eapply ensures_bind; [typeclasses eauto | |].
  { apply steps_ensures. destruct ask; [apply steps_connWrite_quiet|].
    apply steps_ret. typeclasses eauto. }
  intros [e|] _; [by apply ensures_ret; [typeclasses eauto|]|].
  eapply ensures_bind; [typeclasses eauto | |].
  { apply steps_ensures, steps_connWrite_quiet. }
  intros [e|] _; [by apply ensures_ret; [typeclasses eauto|]|].
  eapply ensures_bind; [typeclasses eauto | |].
  { apply steps_ensures. destruct ask; [apply steps_connRead_quiet|].
    apply steps_ret. typeclasses eauto. }
  intros [d|e] _; [|by apply ensures_ret; [typeclasses eauto|]].
  eapply ensures_bind; [typeclasses eauto | |].
  { apply steps_ensures, steps_connRead_quiet. }
  intros [o|e] _; by apply ensures_ret; [typeclasses eauto|].
Qed.

Lemma ensures_redirect (server : string) (plRsp : PipelineResponse) (ask : bool) :
  ensures (redirect server plRsp ask) quiet (fun r => ctx r = ctx plRsp).
Proof.
  unfold redirect.
  eapply ensures_bind; [typeclasses eauto | apply ensures_getSess; typeclasses eauto |].
  intros s _.
  eapply ensures_bind; [typeclasses eauto | |].
  { apply steps_ensures, steps_inWorld_quiet, steps_Conn_quiet. }
  intros [conn|e] _; [|by apply ensures_ret; [typeclasses eauto|]].
  eapply ensures_bind; [typeclasses eauto | |].
  { apply ensures_inWorld_quiet, ensures_redirectOn. }
  intros r Hr. simpl in Hr.
  eapply ensures_bind; [typeclasses eauto | |].
  { apply steps_ensures, steps_inWorld_quiet, steps_connClose_quiet. }
  intros _ _. by apply ensures_ret; [typeclasses eauto|].
Qed.

Lemma ensures_liftRes {A : Type} (r : Res A) :
  ensures (liftRes r) quiet (fun a => r = Ok a).
Proof. intros p. split; [reflexivity|]. simpl. by intros a ->. Qed.

(** The first half of [handleResp] writes nothing to the client, leaves
    the session as it is, and hands on a response for the same request. *)
Lemma ensures_resolve (plRsp : PipelineResponse) :
  ensures (resolve plRsp) quiet (fun r => ctx r = ctx plRsp).
Proof.
  unfold resolve. destruct (err plRsp) as [e|].
  { eapply ensures_bind; [typeclasses eauto | |].
    - apply steps_ensures, steps_inWorld_quiet, steps_TriggerReloadSlots_quiet.
    - intros _ _. by apply ensures_ret; [typeclasses eauto|]. }
  destruct (rsp plRsp) as [[|t raw]|].
  - intros p. split; [reflexivity | done].
  - destruct (Ascii.eqb t T_Error); [|by apply ensures_ret; [typeclasses eauto|]].
    destruct (HasPrefix _ MOVED).
    { eapply ensures_bind; [typeclasses eauto | apply ensures_liftRes |].
      intros r _.
      eapply ensures_bind; [typeclasses eauto | |].
      - apply steps_ensures, steps_inWorld_quiet, steps_TriggerReloadSlots_quiet.
      - intros _ _. apply ensures_redirect. }
    destruct (HasPrefix _ ASK); [|by apply ensures_ret; [typeclasses eauto|]].
    eapply ensures_bind; [typeclasses eauto | apply ensures_liftRes |].
    intros r _. apply ensures_redirect.
  - intros p. split; [reflexivity | done].
Qed.

Lemma clientWrite_run (n : Z) (buf : string) (p : Proxy) :
  exists e w',
    inWorld (clientWrite n buf) p = (Ok e, set_world w' p)
    /\ trace w' = trace (world p) ++ [EvClientWrite n buf]
    /\ (e = None <-> exists reply rest, script (world p) = IOok reply :: rest).
Proof.
  unfold inWorld, zoom, clientWrite, bind, emit, modify, io, ret. simpl.
  destruct (script (world p)) as [|[reply|e] rest] eqn:E; simpl.
  - eexists _, _. split; [reflexivity|]. split; [done|].
    split; [done | by intros (? & ? & ?)].
  - eexists _, _. split; [reflexivity|]. split; [done|].
    split; [by eauto | done].
  - eexists _, _. split; [reflexivity|]. split; [done|].
    split; [done | by intros (? & ? & ?)].
Qed.

(** [writeResp] on a session that is open: one write at most, for the
    response's [seq]; for a sub-response the write comes with the step of
    [rspSeq], when the coordinator has finished. *)
Lemma writeResp_effect (r : PipelineResponse) (p : Proxy) :
  let p' := (writeResp r p).2 in
  rspHeap (sess p') = rspHeap (sess p)
  /\ closed (sess p') = closed (sess p)
  /\ exists new,
       trace (world p') = trace (world p) ++ new
       /\ match parentCmd (ctx r) with
          | None =>
              rspSeq (sess p') = rspSeq (sess p)
              /\ (clientWrites new = [] \/ clientWrites new = [seq (ctx r)])
          | Some _ =>
              (clientWrites new = [] /\ rspSeq (sess p') = rspSeq (sess p))
              \/ (clientWrites new = [seq (ctx r)]
                  /\ rspSeq (sess p') = int64 (rspSeq (sess p) + 1))
          end.
Proof.
  cbv zeta. destruct (writeResp r p) as [res p'] eqn:E. cbn [snd].
  unfold writeResp in E. destruct (parentCmd (ctx r)) as [parent|].
  - unfold bind at 1 in E. cbn [get] in E.
    destruct (coords (world p) !! parent) as [mc|].
    + unfold bind at 1 in E. cbn [inWorld zoom modify] in E.
      destruct (Finished (OnSubCmdFinished mc r)); cbn [negb] in E.
      * unfold bind at 1 in E. cbn [modSess modify] in E.
        match type of E with context [inWorld (clientWrite ?n ?b) ?q] =>
          destruct (clientWrite_run n b q) as (e & w' & E' & T & _) end.
        rewrite E' in E. injection E as <- <-. simpl in *. repeat split; try done.
        eexists. split; [exact T|]. by right.
      * injection E as <- <-. simpl. repeat split; try done.
        exists []. rewrite app_nil_r. split; [done|]. by left.
    + injection E as <- <-. simpl. repeat split; try done.
      exists []. rewrite app_nil_r. split; [done|]. by left.
  - destruct (rsp r) as [raw|].
    + destruct (clientWrite_run (seq (ctx r)) raw p) as (e & w' & E' & T & _).
      rewrite E' in E. injection E as <- <-. simpl. repeat split; try done.
      eexists. split; [exact T|]. split; [done|]. by right.
    + injection E as <- <-. simpl. repeat split; try done.
      exists []. rewrite app_nil_r. split; [done|]. split; [done|]. by left.
Qed.

(** Handling a response that is next in line. *)
Lemma handleResp_effect (r : PipelineResponse) (p : Proxy) :
  seq (ctx r) = rspSeq (sess p) -> handledOne p (handleResp r p).2.
Proof.
  intros Hseq. unfold handledOne.
  destruct (handleResp r p) as [res pf] eqn:E. cbn [snd].
  unfold handleResp in E. unfold bind at 1 in E. cbn [getSess bind get ret] in E.
  rewrite Hseq, Z.eqb_refl in E. cbn [negb] in E.
  unfold bind at 1 in E. cbn [wgAdd modSess modify] in E.
  unfold bind at 1 in E.
  set (p0 := set_sess (set_reqWg (reqWg (sess p) + -1) (sess p)) p) in E.
  assert (exists p1,
            (if parentCmd (ctx r) is None
             then modSess (fun s => set_rspSeq (int64 (rspSeq s + 1)) s)
             else ret tt) p0 = (Ok tt, p1)
            /\ rspHeap (sess p1) = rspHeap (sess p)
            /\ closed (sess p1) = closed (sess p)
            /\ trace (world p1) = trace (world p)
            /\ match parentCmd (ctx r) with
               | None => rspSeq (sess p1) = int64 (rspSeq (sess p) + 1)
               | Some _ => rspSeq (sess p1) = rspSeq (sess p)
               end) as (p1 & E1 & H1 & C1 & T1 & S1).
  { destruct (parentCmd (ctx r)); eexists; (split; [reflexivity|]); by simpl. }
  rewrite E1 in E. clear E1. clearbody p0.
  unfold bind at 1 in E.
  destruct (ensures_resolve r p1) as [[Hs (new1 & Tq & Wq)] Hctx].
  assert (rspSeq (sess p1) = rspSeq (sess p)
          \/ rspSeq (sess p1) = int64 (rspSeq (sess p) + 1)) as S1'.
  { destruct (parentCmd (ctx r)); auto. }
  destruct (resolve r p1) as [[r'| | |] p2]; simpl in Hs, Tq, Hctx.
  2-4: injection E as <- <-; rewrite Hs, H1, C1, Tq, T1; repeat split; try done;
    exists new1; (split; [done|]); left; by split.
  specialize (Hctx r' eq_refl).
  destruct (err r') as [e|].
  { injection E as <- <-. rewrite Hs, H1, C1, Tq, T1. repeat split; try done.
    exists new1. split; [done|]. left. by split. }
  unfold bind at 1 in E. cbn [getSess bind get ret] in E.
  destruct (closed (sess p2)) eqn:Hclosed; cbn [negb] in E.
  { injection E as <- <-. rewrite Hs, H1, Tq, T1. repeat split; try done.
    exists new1. split; [done|]. left. by split. }
  destruct (writeResp_effect r' p2) as (Hh & Hc & new2 & T2 & W2).
  rewrite E in Hh, Hc, T2, W2. cbn [snd] in Hh, Hc, T2, W2.
  rewrite Hctx in W2.
  assert (closed (sess p) = false) as Hopen by (by rewrite <- C1, <- Hs).
  rewrite Hh, Hc, T2, Hs, H1, Tq, T1.
  repeat split; try done.
  exists (new1 ++ new2). rewrite <- app_assoc. split; [done|].
  rewrite clientWrites_app, Wq. simpl.
  destruct (parentCmd (ctx r)).
  - destruct W2 as [[W2 S2]|[W2 S2]].
    + left. split; [done|]. left. by rewrite S2, Hs, S1.
    + right. rewrite W2, S2, Hs, S1, Hseq. by repeat split.
  - destruct W2 as [S2 [W2|W2]].
    + left. split; [done|]. right. by rewrite S2, Hs, S1.
    + right. rewrite W2, S2, Hs, S1, Hseq. by repeat split.
Qed.

Lemma int64_id (z : Z) : - 2 ^ 63 <= z < 2 ^ 63 -> int64 z = z.
Proof. intros Hz. unfold int64. rewrite Z.mod_small; lia. Qed.

Lemma increasingFrom_mono (lo lo' : Z) (l : list Z) :
  lo' <= lo -> increasingFrom lo l -> increasingFrom lo' l.
Proof. destruct l as [|x l]; simpl; [done|]. intros Hlo [Hx Hl]. split; [lia | done]. Qed.

Lemma increasingFrom_app (lo mid : Z) (l1 l2 : list Z) :
  lo <= mid -> increasingFrom lo l1 -> Forall (fun n => n < mid) l1 ->
  increasingFrom mid l2 -> increasingFrom lo (l1 ++ l2).
Proof.
  revert lo. induction l1 as [|x l1 IH]; intros lo Hlo H1 Hall H2; simpl.
  - by eapply increasingFrom_mono.
  - destruct H1 as [Hx H1]. apply Forall_cons in Hall as [Hxm Hall].
    split; [done|]. apply IH; try done. lia.
Qed.

Lemma increasingFrom_sorted (lo : Z) (l : list Z) :
  increasingFrom lo l -> StronglySorted Z.lt l /\ Forall (fun n => lo <= n) l.
Proof.
  revert lo. induction l as [|x l IH]; intros lo Hl; simpl.
  - split; constructor.
  - destruct Hl as [Hx Hl]. destruct (IH _ Hl) as [Hs Hall]. split.
    + constructor; [done|]. eapply Forall_impl; [exact Hall|]. simpl. lia.
    + constructor; [done|]. eapply Forall_impl; [exact Hall|]. simpl. lia.
Qed.

Lemma writesInOrder_refl (p : Proxy) : writesInOrder 0 p p.
Proof. exists []. rewrite app_nil_r. simpl. repeat split; try done; try lia. Qed.

Lemma writesInOrder_trans (k1 k2 : Z) (p1 p2 p3 : Proxy) :
  writesInOrder k1 p1 p2 -> writesInOrder k2 p2 p3 -> writesInOrder (k1 + k2) p1 p3.
Proof.
  intros (n1 & T1 & I1 & F1 & L1 & B1) (n2 & T2 & I2 & F2 & L2 & B2).
  exists (n1 ++ n2). rewrite T2, T1, <- app_assoc, clientWrites_app.
  repeat split; try done; try lia.
  - by eapply increasingFrom_app.
  - apply Forall_app. split; [|done].
    eapply Forall_impl; [exact F1|]. simpl. lia.
Qed.

Lemma writesInOrder_weaken (k k' : Z) (p p' : Proxy) :
  k <= k' -> writesInOrder k p p' -> writesInOrder k' p p'.
Proof.
  intros Hk (n & T & I & F & L & B). exists n. repeat split; try done. lia.
Qed.

(** Within the range of [int64], handling the response next in line keeps
    the writes in order. *)
Lemma handledOne_writesInOrder (p p' : Proxy) :
  - 2 ^ 63 <= rspSeq (sess p) < 2 ^ 63 - 1 ->
  handledOne p p' -> writesInOrder 1 p p'.
Proof.
  intros Hr (Hh & Hc & new & T & W). exists new. split; [done|].
  rewrite Hh. rewrite (int64_id (rspSeq (sess p) + 1)) in W by lia.
  destruct W as [[-> [S|S]]|(-> & _ & S)]; rewrite S; simpl;
    repeat split; try done; try lia; constructor; try done; lia.
Qed.

Lemma drainHeap_writesInOrder (h : list PipelineResponse) (p : Proxy) :
  rspHeap (sess p) = h ->
  - 2 ^ 63 <= rspSeq (sess p) ->
  rspSeq (sess p) + Z.of_nat (length h) < 2 ^ 63 ->
  writesInOrder 0 p (drainHeap h p).2.
Proof.
  revert p. induction h as [|top rest IH]; intros p Hh Hlo Hhi.
  - apply writesInOrder_refl.
  - cbn [drainHeap]. unfold bind at 1. cbn [getSess bind get ret].
    destruct (Z.eqb_spec (seq (ctx top)) (rspSeq (sess p))) as [Hseq|Hseq]; cbn [negb].
    2: apply writesInOrder_refl.
    unfold bind at 1. cbn [modSess modify].
    set (p1 := set_sess (set_rspHeap rest (sess p)) p).
    assert (writesInOrder (-1) p p1) as W1.
    { exists []. rewrite app_nil_r. subst p1. simpl. rewrite Hh. simpl length.
      repeat split; try done; lia. }
    simpl length in Hhi.
    assert (handledOne p1 (handleResp top p1).2) as H2 by (by apply handleResp_effect).
    assert (writesInOrder 1 p1 (handleResp top p1).2) as W2.
    { apply handledOne_writesInOrder; [|done]. subst p1. simpl. lia. }
    pose proof (writesInOrder_trans _ _ _ _ _ W1 W2) as W12. simpl in W12.
    unfold bind at 1.
    destruct (handleResp top p1) as [[[e|]| | |] p2]; cbn [snd] in *; try done.
    destruct H2 as (Hh2 & _). 
    assert (writesInOrder 0 p2 (drainHeap rest p2).2) as W3.
    { destruct W12 as (_ & _ & _ & _ & L & B).
      apply IH; [by rewrite Hh2 | lia |].
      rewrite Hh2 in B. subst p1. simpl in B. rewrite Hh in B. simpl length in B. lia. }
    pose proof (writesInOrder_trans _ _ _ _ _ W12 W3) as W. by simpl in W.
Qed.

Lemma heapPush_length (r : PipelineResponse) (h : list PipelineResponse) :
  length (heapPush r h) = S (length h).
Proof.
  induction h as [|x h IH]; simpl; [done|].
  destruct (_ <? _); simpl; by rewrite ?IH.
Qed.

Lemma handleRespPipeline_writesInOrder (r : PipelineResponse) (p : Proxy) :
  - 2 ^ 63 <= rspSeq (sess p) ->
  rspSeq (sess p) + Z.of_nat (length (rspHeap (sess p))) + 1 < 2 ^ 63 ->
  writesInOrder 1 p (handleRespPipeline r p).2.
Proof.
  intros Hlo Hhi. unfold handleRespPipeline. unfold bind at 1. cbn [getSess bind get ret].
  destruct (Z.eqb_spec (seq (ctx r)) (rspSeq (sess p))) as [Hseq|Hseq]; cbn [negb].
  - assert (handledOne p (handleResp r p).2) as H1 by (by apply handleResp_effect).
    assert (writesInOrder 1 p (handleResp r p).2) as W1.
    { apply handledOne_writesInOrder; [lia | done]. }
    unfold bind at 1.
    destruct (handleResp r p) as [[[e|]| | |] p1]; cbn [snd] in *; try done.
    unfold bind at 1. cbn [getSess bind get ret].
    assert (writesInOrder 0 p1 (drainHeap (rspHeap (sess p1)) p1).2) as W2.
    { destruct W1 as (_ & _ & _ & _ & L & B). apply drainHeap_writesInOrder; [done | lia | lia]. }
    pose proof (writesInOrder_trans _ _ _ _ _ W1 W2) as W. by simpl in W.
  - simpl. exists []. rewrite app_nil_r. simpl.
    rewrite heapPush_length. repeat split; try done; lia.
Qed.

Lemma Close_writesInOrder (p : Proxy) : writesInOrder 0 p (Close p).2.
Proof.
  unfold Close. unfold bind at 1. cbn [getSess bind get ret].
  destruct (closed (sess p)); [apply writesInOrder_refl|].
  simpl. exists [EvClientClose]. simpl. repeat split; try done; lia.
Qed.

Lemma consume_writesInOrder (arrivals : list PipelineResponse) (p : Proxy) :
  - 2 ^ 63 <= rspSeq (sess p) ->
  rspSeq (sess p) + Z.of_nat (length (rspHeap (sess p))) + Z.of_nat (length arrivals)
    < 2 ^ 63 ->
  writesInOrder (Z.of_nat (length arrivals)) p (consume arrivals p).2.
Proof.
  revert p. induction arrivals as [|r rest IH]; intros p Hlo Hhi.
  - apply writesInOrder_refl.
  - simpl length in *. cbn [consume].
    assert (writesInOrder 1 p (handleRespPipeline r p).2) as W1.
    { apply handleRespPipeline_writesInOrder; lia. }
    unfold bind at 1.
    destruct (handleRespPipeline r p) as [[e| | |] p1]; cbn [snd] in *;
      try (eapply writesInOrder_weaken; [|exact W1]; lia).
    assert (writesInOrder 0 p1 ((if e is Some _ then Close else ret tt) p1).2) as W2.
    { destruct e; [apply Close_writesInOrder | apply writesInOrder_refl]. }
    pose proof (writesInOrder_trans _ _ _ _ _ W1 W2) as W12. simpl in W12.
    unfold bind at 1.
    destruct ((if e is Some _ then Close else ret tt) p1) as [[[]| | |] p2]; cbn [snd] in *;
      try (eapply writesInOrder_weaken; [|exact W12]; lia).
    assert (writesInOrder (Z.of_nat (length rest)) p2 (consume rest p2).2) as W3.
    { destruct W12 as (_ & _ & _ & _ & L & B). apply IH; lia. }
    pose proof (writesInOrder_trans _ _ _ _ _ W12 W3) as W.
    eapply writesInOrder_weaken; [|exact W]. lia.
Qed.

(** Whatever the order in which responses arrive on [backQ], and whatever
    the network does, [WritingLoop] writes to the client in strictly
    increasing order of [seq], starting at [rspSeq] or above, as long as
    the sequence numbers stay within [int64]. *)
Theorem WritingLoop_writes_in_seq_order (arrivals : list PipelineResponse) (p : Proxy) :
  - 2 ^ 63 <= rspSeq (sess p) ->
  rspSeq (sess p) + Z.of_nat (length (rspHeap (sess p))) + Z.of_nat (length arrivals)
    < 2 ^ 63 ->
  exists new,
    trace (world (WritingLoop arrivals p).2) = trace (world p) ++ new
    /\ StronglySorted Z.lt (clientWrites new)
    /\ Forall (fun n => rspSeq (sess p) <= n) (clientWrites new).
Proof.
  intros Hlo Hhi.
  assert (writesInOrder (Z.of_nat (length arrivals)) p (WritingLoop arrivals p).2) as W.
  { unfold WritingLoop. pose proof (consume_writesInOrder arrivals p Hlo Hhi) as W1.
    unfold bind. destruct (consume arrivals p) as [[[]| | |] p1]; cbn [snd] in *; try done.
    pose proof (writesInOrder_trans _ _ _ _ _ W1 (Close_writesInOrder p1)) as W.
    by rewrite Z.add_0_r in W. }
  destruct W as (new & T & I & _). exists new. split; [done|].
  by apply increasingFrom_sorted.
Qed.

Lemma handleResp_error_run (r : PipelineResponse) (p : Proxy) (e : string) :
  seq (ctx r) = rspSeq (sess p) -> err r = Some e ->
  exists p',
    handleResp r p = (Ok (Some e), p')
    /\ trace (world p') = trace (world p) ++ [EvTriggerReloadSlots]
    /\ closed (sess p') = closed (sess p)
    /\ rspHeap (sess p') = rspHeap (sess p).
Proof.
  intros Hseq He. unfold handleResp. unfold bind at 1. cbn [getSess bind get ret].
  rewrite Hseq, Z.eqb_refl. cbn [negb].
  unfold bind at 1. cbn [wgAdd modSess modify].
  unfold bind at 1.
  set (p0 := set_sess (set_reqWg (reqWg (sess p) + -1) (sess p)) p).
  assert (exists p1,
            (if parentCmd (ctx r) is None
             then modSess (fun s => set_rspSeq (int64 (rspSeq s + 1)) s)
             else ret tt) p0 = (Ok tt, p1)
            /\ rspHeap (sess p1) = rspHeap (sess p)
            /\ closed (sess p1) = closed (sess p)
            /\ trace (world p1) = trace (world p)) as (p1 & E1 & H1 & C1 & T1).
  { destruct (parentCmd (ctx r)); eexists; (split; [reflexivity|]); by simpl. }
  rewrite E1. unfold bind at 1. unfold resolve. rewrite He.
  unfold bind at 1. unfold inWorld, zoom. rewrite TriggerReloadSlots_run.
  cbn [ret err set_rsp]. rewrite He.
  eexists. split; [reflexivity|]. simpl. by rewrite T1, H1, C1.
Qed.

Lemma Close_run (p : Proxy) :
  exists p',
    Close p = (Ok tt, p')
    /\ closed (sess p') = true
    /\ trace (world p')
       = trace (world p) ++ (if closed (sess p) then [] else [EvClientClose]).
Proof.
  unfold Close. erewrite (bind_run getSess _ p p (sess p)) by reflexivity.
  destruct (closed (sess p)) eqn:Hc.
  - exists p. by rewrite app_nil_r.
  - eexists. split; [reflexivity|]. by simpl.
Qed.

(** A response that carries a transport error, when its turn comes, makes
    the writer trigger a slot reload and close the client connection; the
    error object built from it is not written to the client. *)
Theorem transport_error_closes_session (r : PipelineResponse) (p : Proxy) (e : string) :
  seq (ctx r) = rspSeq (sess p) -> err r = Some e ->
  exists p',
    consume [r] p = (Ok tt, p')
    /\ closed (sess p') = true
    /\ trace (world p')
       = trace (world p) ++ EvTriggerReloadSlots
                            :: (if closed (sess p) then [] else [EvClientClose]).
Proof.
  intros Hseq He.
  destruct (handleResp_error_run r p e Hseq He) as (p1 & E1 & T1 & C1 & _).
  assert (handleRespPipeline r p = (Ok (Some e), p1)) as E2.
  { unfold handleRespPipeline.
    erewrite (bind_run getSess _ p p (sess p)) by reflexivity.
    rewrite Hseq, Z.eqb_refl. cbn [negb].
    by erewrite bind_run by exact E1. }
  destruct (Close_run p1) as (p2 & E3 & C3 & T3).
  exists p2. split.
  - cbn [consume]. erewrite bind_run by exact E2.
    by erewrite bind_run by exact E3.
  - split; [done|]. rewrite T3, T1, C1, <- app_assoc. done.
Qed.

End WriterFacts.

Lemma WritingLoop_writes_in_seq_order_witness :
  exists new,
    trace (Session.world
             (Session.WritingLoop exampleArrivals
                (exampleProxy exampleValkeyConn [IOok ""; IOok ""])).2)
    = [] ++ new
    /\ StronglySorted Z.lt (clientWrites new)
    /\ Forall (fun n => 0 <= n) (clientWrites new).
Proof.
  apply (WritingLoop_writes_in_seq_order exampleArrivals
           (exampleProxy exampleValkeyConn [IOok ""; IOok ""])).
  - simpl. lia.
  - simpl. lia.
Defined.

Lemma transport_error_closes_session_witness :
  exists p',
    Session.consume [exampleFailure] (exampleProxy exampleValkeyConn []) = (Ok tt, p')
    /\ Session.closed (Session.sess p') = true
    /\ trace (Session.world p') = [] ++ [EvTriggerReloadSlots; EvClientClose].
Proof.
  apply (transport_error_closes_session exampleFailure
           (exampleProxy exampleValkeyConn []) "EOF"); reflexivity.
Defined.

(** ** A closed session *)

Section ClosedSession.
Import Session.

Lemma keptSilent_refl (p : Proxy) : closed (sess p) = true -> keptSilent p p.
Proof. intros Hc. split; [done|]. exists []. by rewrite app_nil_r. Qed.

Lemma keptSilent_trans (p1 p2 p3 : Proxy) :
  keptSilent p1 p2 -> keptSilent p2 p3 -> keptSilent p1 p3.
Proof.
  intros (_ & n1 & T1 & W1) (C & n2 & T2 & W2). split; [done|].
  exists (n1 ++ n2). rewrite T2, T1, <- app_assoc, clientWrites_app, W1, W2. done.
Qed.

Lemma handleResp_keptSilent (r : PipelineResponse) (p : Proxy) :
  closed (sess p) = true -> seq (ctx r) = rspSeq (sess p) ->
  keptSilent p (handleResp r p).2 /\ rspHeap (sess (handleResp r p).2) = rspHeap (sess p).
Proof.
  intros Hc Hseq. destruct (handleResp_effect r p Hseq) as (Hh & Hcl & new & T & W).
  split; [|done]. split; [congruence|]. exists new. split; [done|].
  destruct W as [[W _]|(_ & Hopen & _)]; [done | congruence].
Qed.

Lemma drainHeap_keptSilent (h : list PipelineResponse) (p : Proxy) :
  closed (sess p) = true -> keptSilent p (drainHeap h p).2.
Proof.
  revert p. induction h as [|top rest IH]; intros p Hc.
  - by apply keptSilent_refl.
  - cbn [drainHeap]. erewrite (bind_run getSess _ p p (sess p)) by reflexivity.
    destruct (Z.eqb_spec (seq (ctx top)) (rspSeq (sess p))) as [Hseq|Hseq]; cbn [negb].
    2: by apply keptSilent_refl.
    set (p1 := set_sess (set_rspHeap rest (sess p)) p).
    erewrite (bind_run (modSess (set_rspHeap rest)) _ p p1 tt) by reflexivity.
    assert (keptSilent p p1) as K1.
    { split; [done|]. exists []. by rewrite app_nil_r. }
    destruct (handleResp_keptSilent top p1 Hc Hseq) as [K2 _].
    unfold bind at 1.
    destruct (handleResp top p1) as [[[e|]| | |] p2]; cbn [snd] in K2;
      try exact (keptSilent_trans _ _ _ K1 K2).
    eapply keptSilent_trans; [exact (keptSilent_trans _ _ _ K1 K2)|].
    apply IH. by destruct K2.
Qed.

Lemma handleRespPipeline_keptSilent (r : PipelineResponse) (p : Proxy) :
  closed (sess p) = true -> keptSilent p (handleRespPipeline r p).2.
Proof.
  intros Hc. unfold handleRespPipeline.
  erewrite (bind_run getSess _ p p (sess p)) by reflexivity.
  destruct (Z.eqb_spec (seq (ctx r)) (rspSeq (sess p))) as [Hseq|Hseq]; cbn [negb].
  - destruct (handleResp_keptSilent r p Hc Hseq) as [K1 _].
    unfold bind at 1.
    destruct (handleResp r p) as [[[e|]| | |] p1]; cbn [snd] in K1; try exact K1.
    erewrite (bind_run getSess _ p1 p1 (sess p1)) by reflexivity.
    eapply keptSilent_trans; [exact K1|]. apply drainHeap_keptSilent. by destruct K1.
  - simpl. split; [done|]. exists []. by rewrite app_nil_r.
Qed.

Lemma consume_keptSilent (arrivals : list PipelineResponse) (p : Proxy) :
  closed (sess p) = true -> keptSilent p (consume arrivals p).2.
Proof.
  revert p. induction arrivals as [|r rest IH]; intros p Hc.
  - by apply keptSilent_refl.
  - cbn [consume]. pose proof (handleRespPipeline_keptSilent r p Hc) as K1.
    unfold bind at 1.
    destruct (handleRespPipeline r p) as [[e| | |] p1]; cbn [snd] in K1; try exact K1.
    assert (closed (sess p1) = true) as Hc1 by (by destruct K1).
    assert ((if e is Some _ then Close else ret tt) p1 = (Ok tt, p1)) as E.
    { destruct e; [|done]. unfold Close.
      erewrite (bind_run getSess _ p1 p1 (sess p1)) by reflexivity. by rewrite Hc1. }
    erewrite bind_run by exact E.
    eapply keptSilent_trans; [exact K1 | by apply IH].
Qed.

(** Once the session is closed, [WritingLoop] writes nothing more to the
    client, whatever responses arrive. *)
Theorem closed_session_is_not_written (arrivals : list PipelineResponse) (p : Proxy) :
  closed (sess p) = true ->
  exists new,
    trace (world (WritingLoop arrivals p).2) = trace (world p) ++ new
    /\ clientWrites new = [].
Proof.
  intros Hc. pose proof (consume_keptSilent arrivals p Hc) as K.
  assert (keptSilent p (WritingLoop arrivals p).2) as (_ & new & T & W).
  { unfold WritingLoop. unfold bind at 1.
    destruct (consume arrivals p) as [[[]| | |] p1]; cbn [snd] in K; try exact K.
    destruct (Close_run p1) as (p2 & E & C & T). rewrite E. cbn [snd].
    eapply keptSilent_trans; [exact K|]. split; [done|].
    destruct K as [Hc1 _]. rewrite Hc1, app_nil_r in T. exists []. by rewrite app_nil_r. }
  by exists new.
Qed.

End ClosedSession.

Lemma closed_session_is_not_written_witness :
  exists new,
    trace (Session.world
             (Session.WritingLoop exampleArrivals
                (Session.set_sess
                   (Session.set_closed true (exampleSession exampleValkeyConn))
                   (exampleProxy exampleValkeyConn []))).2)
    = [] ++ new
    /\ clientWrites new = [].
Proof.
  apply (closed_session_is_not_written exampleArrivals
           (Session.set_sess
              (Session.set_closed true (exampleSession exampleValkeyConn))
              (exampleProxy exampleValkeyConn []))).
  reflexivity.
Defined.
